(** * github_workflow_manager (gwm): the loader, the scanner and the matcher

    A shallow embedding of [gwm/gwm.py] and the properties of its three
    components: [load_workflows] (manifest loader), [determine_language],
    [find_existing_workflows] and [find_repositories] (repository scanner)
    and [determine_operations] (matcher).

    Python values are modelled as follows.
    - [str] is [string]; a [list] is a [list].
    - [pathlib.Path] (POSIX flavour) is a record of a root and the list of
      path components, with the parsing pathlib performs when a string is
      joined to a path.
    - A [dict] whose iteration order is observable (the parsed manifest, the
      language registry, the per-language index) is an association list in
      insertion order; the body of one manifest entry, which is only looked
      up by key, is a [gmap].
    - An exception is a value of [exn]; a function that may raise returns a
      [result]. Output on [sys.stderr] is the list of lines written, returned
      next to the result.
    - The file system is a tree of named nodes for the scanner, which lists
      directories, and a predicate on paths for the loader, which only asks
      whether a path is a regular file.

    The loader is modelled from the parsed manifest on, for manifests in
    the documented format: every entry is a table whose values are strings
    or lists of strings.  Reading and parsing the file, and values of other
    types, are outside the model.  The scanner is given the entries of the
    base directory; a base directory that cannot be listed is outside the
    model, and so are symbolic links. *)

From Stdlib Require Import Ascii String.
From stdpp Require Import base strings list gmap.

(** ** pathlib *)

Module Pathlib.

(** [str.split(sep)] for a one-character separator. *)
Fixpoint split (sep : ascii) (s : string) : list string :=
  match s with
  | EmptyString => [EmptyString]
  | String c s' =>
      if Ascii.eqb c sep then EmptyString :: split sep s'
      else match split sep s' with
           | [] => [String c EmptyString]
           | h :: t => String c h :: t
           end
  end.

(** [str.lstrip(sep)] together with the number of characters stripped. *)
Fixpoint lstrip (sep : ascii) (s : string) : nat * string :=
  match s with
  | EmptyString => (0, EmptyString)
  | String c s' =>
      if Ascii.eqb c sep then let '(n, r) := lstrip sep s' in (S n, r)
      else (0, s)
  end.

Definition sep : ascii := "/"%char.

(** [_PosixFlavour.splitroot]: exactly two leading slashes are kept as the
    root, any other positive number collapses to one. *)
Definition splitroot (part : string) : string * string :=
  match lstrip sep part with
  | (0, _) => (EmptyString, part)
  | (2, stripped) => ("//", stripped)
  | (_, stripped) => ("/", stripped)
  end.

Record Path := mkPath { root : string; parts : list string }.

#[global] Instance Path_eq_dec : EqDecision Path.
Proof. solve_decision. Defined.

(** A component survives parsing when it is neither empty nor ["."]. *)
Definition keep_part (x : string) : bool :=
  negb (String.eqb x EmptyString) && negb (String.eqb x ".").

(** [PurePath._parse_parts] on one string. *)
Definition parse (s : string) : Path :=
  let '(r, rel) := splitroot s in
  mkPath r (List.filter keep_part (split sep rel)).

(** [path / s]: a rooted right operand replaces the left one. *)
Definition joinpath (p : Path) (s : string) : Path :=
  let q := parse s in
  if String.eqb (root q) EmptyString
  then mkPath (root p) (parts p ++ parts q)
  else q.

(** [Path._make_child_relpath], used by [iterdir] and [rglob]: the entry
    name is appended as it is. *)
Definition child (p : Path) (n : string) : Path :=
  mkPath (root p) (parts p ++ [n]).

(** [path.name]. *)
Definition name (p : Path) : string := List.last (parts p) EmptyString.

(** [path.parent]. *)
Definition parent (p : Path) : Path := mkPath (root p) (removelast (parts p)).

(** The tail of [s] starting at its last dot, if it has one. *)
Fixpoint from_last_dot (s : string) : option string :=
  match s with
  | EmptyString => None
  | String c s' =>
      match from_last_dot s' with
      | Some t => Some t
      | None => if Ascii.eqb c "."%char then Some s else None
      end
  end.

(** [path.suffix] on the final component: with [i = name.rfind('.')], the
    result is [name[i:]] when [0 < i < len(name) - 1] and [''] otherwise. *)
Definition suffix_of_name (n : string) : string :=
  match n with
  | EmptyString => EmptyString
  | String _ rest =>
      match from_last_dot rest with
      | Some t => if String.eqb t "." then EmptyString else t
      | None => EmptyString
      end
  end.

Definition suffix (p : Path) : string := suffix_of_name (name p).

End Pathlib.

Import Pathlib.

Infix "</>" := joinpath (at level 40, left associativity).

(** ** Python dictionaries in insertion order *)

Inductive exn :=
  | KeyError (key : string)
  | FileNotFoundError (file : string).

Inductive result (A : Type) :=
  | Ok (a : A)
  | Raise (e : exn).
Arguments Ok {A} a.
Arguments Raise {A} e.

Section odict.
Context {V : Type}.

(** A [dict] with [str] keys, as the list of its items in insertion
    order. A dictionary built by the operations below has no repeated
    key ([od_wf]). *)
Definition odict := list (string * V).

Definition keys (d : odict) : list string := d.*1.

Definition od_wf (d : odict) : Prop := NoDup (keys d).

Fixpoint od_lookup (d : odict) (k : string) : option V :=
  match d with
  | [] => None
  | (k', v) :: d' => if decide (k' = k) then Some v else od_lookup d' k
  end.

(** [d[k]] on a plain [dict]. *)
Definition getitem (d : odict) (k : string) : result V :=
  match od_lookup d k with
  | Some v => Ok v
  | None => Raise (KeyError k)
  end.

(** [d[k] = v]: an existing key keeps its position, a new key goes last. *)
Fixpoint setitem (d : odict) (k : string) (v : V) : odict :=
  match d with
  | [] => [(k, v)]
  | (k', v') :: d' =>
      if decide (k' = k) then (k', v) :: d' else (k', v') :: setitem d' k v
  end.

(** [del d[k]] for a key that is present. *)
Fixpoint delitem (d : odict) (k : string) : odict :=
  match d with
  | [] => []
  | (k', v') :: d' =>
      if decide (k' = k) then d' else (k', v') :: delitem d' k
  end.

(** [d[k]] on a [collections.defaultdict]: a missing key is first set to
    the default, so the lookup returns the dictionary it leaves behind. *)
Definition dd_getitem (default : V) (d : odict) (k : string) : V * odict :=
  match od_lookup d k with
  | Some v => (v, d)
  | None => (default, setitem d k default)
  end.
End odict.
Arguments odict V : clear implicits.

(** ** Data model *)

Module Workflow.
Record t := mk {
  name : string;
  parent_dir : Path;
  files : list string;
  languages : list string
}.
#[global] Instance eq_dec : EqDecision t.
Proof. solve_decision. Defined.
End Workflow.

Module Repository.
Record t := mk {
  path : Path;
  languages : list string;
  workflows : list string
}.
#[global] Instance eq_dec : EqDecision t.
Proof. solve_decision. Defined.
End Repository.

Definition _WORKFLOW_PATH : string := ".github/workflows".

(** A copy operation: (source file, destination file). *)
Definition operation : Type := Path * Path.

(** The per-language index: a [defaultdict(list)] of workflows. *)
Definition index : Type := odict (list Workflow.t).

(** ** The matcher *)

(** The tuple built in the innermost loop body. *)
Definition op (repo : Repository.t) (wf : Workflow.t) (wf_file : string)
  : operation :=
  (Workflow.parent_dir wf </> wf_file,
   Repository.path repo </> _WORKFLOW_PATH </> wf_file).

(** [for wf_file in wf.files: operations.append(op)] *)
Definition file_loop (repo : Repository.t) (operations : list operation)
    (wf : Workflow.t) : list operation :=
  foldl (λ ops wf_file, ops ++ [op repo wf wf_file]) operations
        (Workflow.files wf).

(** [lang in repo.languages + ["*"]] *)
Definition relevant (repo : Repository.t) (lang : string) : Prop :=
  lang ∈ Repository.languages repo ++ ["*"].

#[global] Instance relevant_dec repo lang : Decision (relevant repo lang).
Proof. unfold relevant. apply _. Defined.

(** One iteration of [for lang in (...)]: the bucket is fetched with
    [workflows_per_language[lang]] and its workflows are walked in order. *)
Definition lang_step (repo : Repository.t) (st : list operation * index)
    (lang : string) : list operation * index :=
  let '(bucket, idx) := dd_getitem [] st.2 lang in
  (foldl (file_loop repo) st.1 bucket, idx).

(** One iteration of [for repo in repositories]: the generator walks the
    keys of the index and keeps the relevant ones.  The generator is lazy,
    but the loop body only looks up keys it was handed, so the dictionary
    keeps its keys while it is walked ([lang_loop_app]) and the keys can be
    taken when the loop starts. *)
Definition repo_step (st : list operation * index) (repo : Repository.t)
  : list operation * index :=
  foldl (lang_step repo) st (filter (relevant repo) (keys st.2)).

(** [determine_operations] together with the index object as the call
    leaves it. *)
Definition determine_operations_run (repositories : list Repository.t)
    (workflows_per_language : index) : list operation * index :=
  foldl repo_step ([], workflows_per_language) repositories.

Definition determine_operations (repositories : list Repository.t)
    (workflows_per_language : index) : list operation :=
  (determine_operations_run repositories workflows_per_language).1.

(** The matcher as the specification words it: a comprehension over
    repositories, relevant tags of the index, workflows of the tag's bucket
    and files of the workflow. *)
Definition bucket (idx : index) (lang : string) : list Workflow.t :=
  default [] (od_lookup idx lang).

Definition spec_repo_operations (idx : index) (repo : Repository.t)
  : list operation :=
  lang ← filter (λ lang, lang ∈ Repository.languages repo ∨ lang = "*")
                (keys idx);
  wf ← bucket idx lang;
  (λ wf_file,
     (Workflow.parent_dir wf </> wf_file,
      Repository.path repo </> ".github/workflows" </> wf_file))
    <$> Workflow.files wf.

Definition spec_operations (repositories : list Repository.t) (idx : index)
  : list operation :=
  repositories ≫= spec_repo_operations idx.

(** How often a value occurs in a list. *)
Definition occurrences `{EqDecision A} (x : A) (l : list A) : nat :=
  length (filter (λ y, y = x) l).

(** ** Exceptions as results *)

#[global] Instance result_ret : MRet result := λ A a, Ok a.
#[global] Instance result_bind : MBind result := λ A B f m,
  match m with
  | Ok a => f a
  | Raise e => Raise e
  end.

(** A [for] loop whose body may raise: the first exception ends the loop. *)
Fixpoint for_each {A S : Type} (body : S → A → result S) (st : S)
    (l : list A) : result S :=
  match l with
  | [] => Ok st
  | x :: l' => st' ← body st x; for_each body st' l'
  end.

(** [str(e)] for the exceptions of the model; a [KeyError] shows the
    [repr] of its key, an [OSError] built from one string shows it. *)
Definition exn_str (e : exn) : string :=
  match e with
  | KeyError k => "'" +:+ k +:+ "'"
  | FileNotFoundError f => f
  end.

(** ** The manifest loader *)

(** The value of a [file] or [language] key: a string or a list of
    strings, as the manifest format documents them. *)
Inductive value :=
  | Scalar (s : string)
  | Array (l : list string).

#[global] Instance value_eq_dec : EqDecision value.
Proof. solve_decision. Defined.

(** [as_list]: a list is returned as it is, anything else is wrapped. *)
Definition as_list (x : value) : value :=
  match x with
  | Array l => Array l
  | Scalar s => Array [s]
  end.

(** Iterating a value: a list yields its elements, a string its
    characters. *)
Fixpoint chars (s : string) : list string :=
  match s with
  | EmptyString => []
  | String c s' => String c EmptyString :: chars s'
  end.

Definition py_iter (x : value) : list string :=
  match x with
  | Array l => l
  | Scalar s => chars s
  end.

(** The body of a manifest entry (a TOML table). *)
Abbreviation info_t := (gmap string value).

(** [info[key]] *)
Definition info_getitem (info : info_t) (key : string) : result value :=
  match info !! key with
  | Some v => Ok v
  | None => Raise (KeyError key)
  end.

(** The parsed manifest: [manifest.items()] in document order. *)
Abbreviation manifest_t := (list (string * info_t)).

Definition _MANIFEST_KEY_FILE : string := "file".
Definition _MANIFEST_KEY_LANGUAGE : string := "language".

(** [colorama.Fore.YELLOW] *)
Definition YELLOW : string := String "027"%char "[33m".

(** The two lists the loop of [load_workflows] fills. *)
Record loader_state := mkLoader {
  workflows : list Workflow.t;
  workflows_per_language : index
}.

(** [workflows_per_language[lang].append(wf)] *)
Definition index_append (idx : index) (lang : string) (wf : Workflow.t)
  : index :=
  let '(b, idx') := dd_getitem [] idx lang in
  setitem idx' lang (b ++ [wf]).

(** The line printed for a rejected entry. *)
Definition diagnostic (name : string) (e : exn) : string :=
  YELLOW +:+ "Ignore invalid workflow " +:+ name +:+ ".  Reason: "
    +:+ exn_str e.

Section loader.
(** [path.is_file()] on the file system the loader runs against. *)
Variable is_file : Path → bool.

(** [Workflow.validate] *)
Fixpoint validate_files (parent_dir : Path) (files : list string)
  : result unit :=
  match files with
  | [] => Ok tt
  | file :: rest =>
      if negb (is_file (parent_dir </> file))
      then Raise (FileNotFoundError file)
      else validate_files parent_dir rest
  end.

Definition validate (wf : Workflow.t) : result unit :=
  validate_files (Workflow.parent_dir wf) (Workflow.files wf).

(** One iteration of [for name, info in manifest.items()]: the lines it
    prints on [sys.stderr] and the state it leaves, or the exception that
    escapes it.  The two normalising assignments are outside the [try]; an
    exception raised inside the [try] prints the diagnostic and continues
    with the next entry. *)
Definition load_entry (parent_dir : Path) (st : loader_state)
    (entry : string * info_t) : result (list string * loader_state) :=
  let '(name, info) := entry in
  let info :=
    if decide (info !! _MANIFEST_KEY_LANGUAGE = None)
    then <[_MANIFEST_KEY_LANGUAGE := Array ["*"]]> info
    else info in
  language ← info_getitem info _MANIFEST_KEY_LANGUAGE;
  let info := <[_MANIFEST_KEY_LANGUAGE := as_list language]> info in
  file ← info_getitem info _MANIFEST_KEY_FILE;
  let info := <[_MANIFEST_KEY_FILE := as_list file]> info in
  files ← info_getitem info _MANIFEST_KEY_FILE;
  languages ← info_getitem info _MANIFEST_KEY_LANGUAGE;
  let wf := Workflow.mk name parent_dir (py_iter files) (py_iter languages) in
  match validate wf with
  | Raise e => Ok ([diagnostic name e], st)
  | Ok _ =>
      Ok ([],
          mkLoader (workflows st ++ [wf])
            (foldl (λ idx lang, index_append idx lang wf)
               (workflows_per_language st) (py_iter languages)))
  end.

(** The loop over the manifest: an exception that escapes an iteration
    ends the load, and what was printed so far stays printed. *)
Fixpoint load_loop (parent_dir : Path) (st : loader_state)
    (items : manifest_t) : list string * result loader_state :=
  match items with
  | [] => ([], Ok st)
  | entry :: rest =>
      match load_entry parent_dir st entry with
      | Ok (out, st') =>
          let '(err, r) := load_loop parent_dir st' rest in (out ++ err, r)
      | Raise e => ([], Raise e)
      end
  end.

(** [load_workflows], given the manifest as [tomli.load] returns it.
    The result is what was written to [sys.stderr] and either the
    returned pair or the exception that ended the call. *)
Definition load_workflows (manifest_file : Path) (manifest : manifest_t)
  : list string * result (list Workflow.t * index) :=
  let '(err, r) :=
    load_loop (parent manifest_file) (mkLoader [] []) manifest in
  (err, st ← r; mret (workflows st, workflows_per_language st)).
End loader.

(** *** The loader's result in closed form

    The definitions below describe what the loop computes; the lemmas of
    the second half relate them to [load_workflows]. *)

(** The [language] list of an entry after normalisation. *)
Definition entry_languages (info : info_t) : list string :=
  match info !! _MANIFEST_KEY_LANGUAGE with
  | None => ["*"]
  | Some v => py_iter (as_list v)
  end.

(** The [file] list of an entry after normalisation, if the key is there. *)
Definition entry_files (info : info_t) : option (list string) :=
  (λ v, py_iter (as_list v)) <$> info !! _MANIFEST_KEY_FILE.

(** The workflow an entry contributes, if it has the [file] key and all
    its files exist. *)
Definition accepted (is_file : Path → bool) (parent_dir : Path)
    (entry : string * info_t) : option Workflow.t :=
  files ← entry_files entry.2;
  let wf := Workflow.mk entry.1 parent_dir files (entry_languages entry.2) in
  match validate is_file wf with
  | Ok _ => Some wf
  | Raise _ => None
  end.

(** [for lang in info["language"]: workflows_per_language[lang].append(wf)] *)
Definition add_workflow (idx : index) (wf : Workflow.t) : index :=
  foldl (λ idx lang, index_append idx lang wf) idx (Workflow.languages wf).

(** The copies of [wf] the loop appends to the bucket of [lang]: one per
    occurrence of [lang] in the workflow's language list. *)
Definition copies (lang : string) (wf : Workflow.t) : list Workflow.t :=
  (λ _, wf) <$> filter (λ l, l = lang) (Workflow.languages wf).


(** ** The repository scanner *)

Definition LANGUAGES : odict (list string) :=
  [ ("python", [".py"]);
    ("c++", [".cpp"; ".hpp"; ".hxx"]);
    ("markdown", [".md"; ".markdown"]);
    ("rst", [".rst"]);
    ("lua", [".lua"]) ].

(** What a directory entry is: a regular file, a directory with its
    entries in the order the file system enumerates them, or something
    that is neither. *)
#[warnings="-register-all"]
Inductive node :=
  | File
  | Dir (entries : list (string * node))
  | Other.

Abbreviation entries_t := (list (string * node)).

Definition is_file (nd : node) : bool :=
  match nd with File => true | _ => false end.

Definition is_dir (nd : node) : bool :=
  match nd with Dir _ => true | _ => false end.

(** [path.iterdir()] on a directory with the given entries: the children's
    paths, here with what each one is. *)
Definition iterdir (p : Path) (entries : entries_t) : list (Path * node) :=
  (λ e, (child p e.1, e.2)) <$> entries.

(** [path.rglob("*")]: every entry below the directory, the directory's own
    entries first, then those of each subdirectory in turn. *)
Fixpoint rglob_node (p : Path) (nd : node) : list (Path * node) :=
  match nd with
  | Dir entries =>
      iterdir p entries ++
      (fix walk (es : entries_t) : list (Path * node) :=
         match es with
         | [] => []
         | e :: es' => rglob_node (child p e.1) e.2 ++ walk es'
         end) entries
  | _ => []
  end.

Definition rglob (p : Path) (entries : entries_t) : list (Path * node) :=
  rglob_node p (Dir entries).

(** The node a relative path leads to inside a directory. *)
Fixpoint walk_to (entries : entries_t) (rel : list string) : option node :=
  match rel with
  | [] => Some (Dir entries)
  | n :: rel' =>
      match od_lookup entries n with
      | Some (Dir es) => walk_to es rel'
      | Some nd => match rel' with [] => Some nd | _ => None end
      | None => None
      end
  end.

(** One iteration of [for lang in list(check_langs.keys())]. *)
Definition check_lang (suffix : string)
    (st : odict (list string) * list string) (lang : string)
  : result (odict (list string) * list string) :=
  exts ← getitem st.1 lang;
  if decide (suffix ∈ exts)
  then Ok (delitem st.1 lang, st.2 ++ [lang])
  else Ok st.

(** The loop over the files, with its early [break]. *)
Fixpoint scan_files (files : list Path)
    (st : odict (list string) * list string)
  : result (odict (list string) * list string) :=
  match files with
  | [] => Ok st
  | file :: rest =>
      match st.1 with
      | [] => Ok st
      | _ => st' ← for_each (check_lang (suffix file)) st (keys st.1);
             scan_files rest st'
      end
  end.

(** [determine_language] over a registry; the source uses [LANGUAGES]. *)
Definition determine_language_in (registry : odict (list string))
    (dir_path : Path) (entries : entries_t) : result (list string) :=
  let files := (filter (λ x, is_file x.2) (rglob dir_path entries)).*1 in
  st ← scan_files files (registry, []);
  mret st.2.

Definition determine_language (dir_path : Path) (entries : entries_t)
  : result (list string) :=
  determine_language_in LANGUAGES dir_path entries.

(** [find_existing_workflows] *)
Definition find_existing_workflows (repo_dir : Path) (entries : entries_t)
  : list string :=
  let workflow_dir := repo_dir </> _WORKFLOW_PATH in
  match walk_to entries (parts (parse _WORKFLOW_PATH)) with
  | Some (Dir es) =>
      name <$> (filter (λ f, is_file f.2 ∧ suffix f.1 = ".yml")
                  (iterdir workflow_dir es)).*1
  | _ => []
  end.

(** One iteration of the loop of [find_repositories] over the directories
    directly under the base. *)
Definition scan_dir (ignore : list string) (repos : list Repository.t)
    (x : Path * node) : result (list Repository.t) :=
  match x.2 with
  | Dir es =>
      if decide (name x.1 ∈ ignore) then Ok repos
      else
        langs ← determine_language x.1 es;
        let existing_workflows := find_existing_workflows x.1 es in
        Ok (repos ++ [Repository.mk x.1 langs existing_workflows])
  | _ => Ok repos
  end.

Definition find_repositories (base_dir : Path) (entries : entries_t)
    (ignore : list string) : result (list Repository.t) :=
  for_each (scan_dir ignore) [] (iterdir base_dir entries).

(** [names] leads from a directory with the given entries down to a node:
    every name but the last is a subdirectory of the one before. *)
Inductive reach : entries_t → list string → node → Prop :=
  | reach_here es n nd :
      (n, nd) ∈ es → reach es [n] nd
  | reach_below es n sub names nd :
      (n, Dir sub) ∈ es → reach sub names nd → reach es (n :: names) nd.

(** The path of a node reached from [p] by [names]. *)
Definition extend (p : Path) (names : list string) : Path :=
  mkPath (root p) (parts p ++ names).

(** The extension of the file a chain of names ends in. *)
Definition extension (names : list string) : string :=
  suffix_of_name (List.last names EmptyString).

(** A tag is recognised in a directory when some regular file below it, at
    any depth, has an extension of the tag's list in the registry. *)
Definition recognised (registry : odict (list string)) (entries : entries_t)
    (lang : string) : Prop :=
  ∃ exts names,
    (lang, exts) ∈ registry ∧ reach entries names File
    ∧ extension names ∈ exts.

(** The files [determine_language] walks, in the order of [rglob]. *)
Definition enumerated_files (dir_path : Path) (entries : entries_t)
  : list Path :=
  (filter (λ x, is_file x.2) (rglob dir_path entries)).*1.

(** ** A workspace and a manifest to run the functions on *)

Module Scenario.

Definition workspace : entries_t :=
  [ ("empty_pkg", Dir []);
    ("py_pkg",
      Dir [ ("file.py", File);
            (".github",
              Dir [ ("workflows",
                      Dir [ ("exists1.yml", File);
                            ("exists2.yml", File);
                            ("some_problem_matcher.json", File);
                            ("old.yml", Dir [("nested.yml", File)]) ]) ]) ]);
    ("notes.md", File);
    ("cpp_pkg", Dir [ ("src", Dir [("main.cpp", File)]) ]);
    ("py_cpp_pkg", Dir [ ("file.py", File); ("main.cpp", File) ]) ].

Definition base_dir : Path := parse "/tmp/ws".

Definition manifest_file : Path := parse "/repo/workflows/workflows.toml".

Definition manifest : manifest_t :=
  [ ("python_flake8",
      {[ "file" := Array ["flake8.yml"; "flake8-problem-matcher.json"];
         "language" := Scalar "python" ]});
    ("doesnotexist",
      {[ "file" := Scalar "missing.yml"; "language" := Scalar "python" ]});
    ("git_fixup", {[ "file" := Scalar "git.yml" ]}) ].

(** The regular files next to the manifest. *)
Definition workflow_files : list Path :=
  [ parse "/repo/workflows/workflows.toml";
    parse "/repo/workflows/flake8.yml";
    parse "/repo/workflows/flake8-problem-matcher.json";
    parse "/repo/workflows/git.yml";
    parse "/repo/workflows/lint.yml" ].

Definition is_file (p : Path) : bool := bool_decide (p ∈ workflow_files).

(** What the loader and the scanner return on them (see
    [Scenario_load_workflows] and [Scenario_find_repositories]). *)
Definition python_flake8 : Workflow.t :=
  Workflow.mk "python_flake8" (parse "/repo/workflows")
    ["flake8.yml"; "flake8-problem-matcher.json"] ["python"].

Definition git_fixup : Workflow.t :=
  Workflow.mk "git_fixup" (parse "/repo/workflows") ["git.yml"] ["*"].

Definition idx : index :=
  [ ("python", [python_flake8]); ("*", [git_fixup]) ].

Definition empty_pkg : Repository.t :=
  Repository.mk (parse "/tmp/ws/empty_pkg") [] [].

Definition py_pkg : Repository.t :=
  Repository.mk (parse "/tmp/ws/py_pkg") ["python"]
    ["exists1.yml"; "exists2.yml"].

Definition cpp_pkg : Repository.t :=
  Repository.mk (parse "/tmp/ws/cpp_pkg") ["c++"] [].

Definition repos : list Repository.t := [empty_pkg; py_pkg; cpp_pkg].

(** A manifest with one workflow listed under two tags. *)
Definition manifest_multi : manifest_t :=
  [ ("lint",
      {[ "file" := Scalar "lint.yml"; "language" := Array ["python"; "*"] ]}) ].

Definition lint : Workflow.t :=
  Workflow.mk "lint" (parse "/repo/workflows") ["lint.yml"] ["python"; "*"].

Definition idx_multi : index := [ ("python", [lint]); ("*", [lint]) ].





(** A manifest whose second entry has no [file] key. *)
Definition manifest_no_file : manifest_t :=
  [ ("git_fixup", {[ "file" := Scalar "git.yml" ]});
    ("broken", {[ "language" := Scalar "python" ]});
    ("lint", {[ "file" := Scalar "lint.yml"; "language" := Scalar "python" ]}) ].

End Scenario.

(** A manifest kept in the workspace whose second workflow names, by its
    absolute path, the file the third one installs in the repository
    [app]. *)
Module Order.

Definition manifest_file : Path := parse "/ws/tools/actions.toml".

Definition manifest : manifest_t :=
  [ ("lint", {[ "file" := Scalar "lint.yml"; "language" := Scalar "python" ]});
    ("pinned", {[ "file" := Scalar "/ws/app/.github/workflows/ci.yml" ]});
    ("ci", {[ "file" := Scalar "ci.yml"; "language" := Scalar "python" ]}) ].

Definition is_file (p : Path) : bool :=
  bool_decide (p ∈ [ parse "/ws/tools/actions.toml";
                     parse "/ws/tools/lint.yml";
                     parse "/ws/tools/ci.yml";
                     parse "/ws/app/main.py";
                     parse "/ws/app/.github/workflows/ci.yml" ]).

Definition lint : Workflow.t :=
  Workflow.mk "lint" (parse "/ws/tools") ["lint.yml"] ["python"].

Definition pinned : Workflow.t :=
  Workflow.mk "pinned" (parse "/ws/tools")
    ["/ws/app/.github/workflows/ci.yml"] ["*"].

Definition ci : Workflow.t :=
  Workflow.mk "ci" (parse "/ws/tools") ["ci.yml"] ["python"].

Definition idx : index := [ ("python", [lint; ci]); ("*", [pinned]) ].

Definition app : Repository.t :=
  Repository.mk (parse "/ws/app") ["python"] ["ci.yml"].

End Order.

(** A manifest two of whose workflows, declared under different tags,
    install the same file. *)
Module Shared.

Definition manifest_file : Path := parse "/repo/ci/workflows.toml".

Definition manifest : manifest_t :=
  [ ("lint", {[ "file" := Scalar "lint.yml"; "language" := Scalar "python" ]});
    ("base", {[ "file" := Scalar "ci.yml" ]});
    ("ci", {[ "file" := Scalar "ci.yml"; "language" := Scalar "python" ]}) ].

Definition is_file (p : Path) : bool :=
  bool_decide (p ∈ [ parse "/repo/ci/lint.yml"; parse "/repo/ci/ci.yml" ]).

Definition lint : Workflow.t :=
  Workflow.mk "lint" (parse "/repo/ci") ["lint.yml"] ["python"].

Definition base : Workflow.t :=
  Workflow.mk "base" (parse "/repo/ci") ["ci.yml"] ["*"].

Definition ci : Workflow.t :=
  Workflow.mk "ci" (parse "/repo/ci") ["ci.yml"] ["python"].

Definition idx : index := [ ("python", [lint; ci]); ("*", [base]) ].

Definition app : Repository.t :=
  Repository.mk (parse "/ws/app") ["python"] [].

End Shared.

(** ** Closed forms used to state further properties *)

(** The entry has the [file] key. *)
Definition has_file_key (entry : string * info_t) : Prop :=
  is_Some (entry.2 !! _MANIFEST_KEY_FILE).

(** The line the loader prints for an entry, if it rejects it. *)
Definition rejection (is_file : Path → bool) (parent_dir : Path)
    (entry : string * info_t) : option string :=
  files ← entry_files entry.2;
  match validate_files is_file parent_dir files with
  | Raise e => Some (diagnostic entry.1 e)
  | Ok _ => None
  end.

(** The tags of a list in the order in which each is first met. *)
Definition note_tag (tags : list string) (lang : string) : list string :=
  if decide (lang ∈ tags) then tags else tags ++ [lang].

Definition first_seen (langs : list string) : list string :=
  foldl note_tag [] langs.

(** An entry written out in full: both keys as lists, the language
    defaulted. *)
Definition normalise (info : info_t) : info_t :=
  let info := <[_MANIFEST_KEY_LANGUAGE := Array (entry_languages info)]> info in
  match info !! _MANIFEST_KEY_FILE with
  | Some v => <[_MANIFEST_KEY_FILE := as_list v]> info
  | None => info
  end.

(** The record [find_repositories] builds for an entry of the base
    directory, if the entry is a directory. *)
Definition repository_of (base_dir : Path) (e : string * node)
  : option Repository.t :=
  match e.2 with
  | Dir es =>
      match determine_language (child base_dir e.1) es with
      | Ok langs =>
          Some (Repository.mk (child base_dir e.1) langs
                  (find_existing_workflows (child base_dir e.1) es))
      | Raise _ => None
      end
  | _ => None
  end.

(** ** Printing a table *)

(** The exception [print_table] can end with. *)
Inductive table_error :=
  | IndexError.

(** [n] spaces. *)
Fixpoint spaces (n : nat) : string :=
  match n with
  | 0 => EmptyString
  | S n' => String " "%char (spaces n')
  end.

(** [format(cell, "<{width}s")]: the cell followed by the spaces that
    bring it to the width; a cell at least that long is left as it is. *)
Definition pad (cell : string) (width : nat) : string :=
  cell +:+ spaces (width - String.length cell).

(** [sep.join(items)] *)
Fixpoint join (sep : string) (items : list string) : string :=
  match items with
  | [] => EmptyString
  | [x] => x
  | x :: rest => x +:+ sep +:+ join sep rest
  end.

(** The replacement fields of [fmt_str.format] on the unpacked row: one
    per width, each taking the next positional argument; a missing
    argument raises. *)
Fixpoint fields (widths : list nat) (row : list string)
  : option (list string) :=
  match widths, row with
  | [], _ => Some []
  | _ :: _, [] => None
  | w :: ws, cell :: cells => (pad cell w ::.) <$> fields ws cells
  end.

Definition format_row (widths : list nat) (row : list string)
  : option string :=
  join " | " <$> fields widths row.

(** [max_lengths = [max(x, y) for x, y in zip(max_lengths, lengths)]] *)
Definition widen (max_lengths : list nat) (row : list string) : list nat :=
  zip_with max max_lengths (String.length <$> row).

(** The loop [for row in data] that prints each formatted row: the lines
    printed and the exception that ended the loop, if any. *)
Fixpoint print_rows (widths : list nat) (data : list (list string))
  : list string * option table_error :=
  match data with
  | [] => ([], None)
  | row :: rest =>
      match format_row widths row with
      | None => ([], Some IndexError)
      | Some line =>
          let '(out, e) := print_rows widths rest in (line :: out, e)
      end
  end.

(** [print_table]: the lines written to standard output and the
    exception raised, if any.  A header that is [None] or empty is not
    printed. *)
Definition print_table (data : list (list string))
    (header : option (list string)) : list string * option table_error :=
  let data :=
    match header with
    | Some (h :: hs) => (h :: hs) :: data
    | _ => data
    end in
  match data with
  | [] => ([], Some IndexError)
  | first :: rest =>
      let max_lengths := foldl widen (String.length <$> first) rest in
      print_rows max_lengths data
  end.

(** The table as [print_table] sees it, and the number of columns it
    prints: that of the shortest row. *)
Definition with_header (data : list (list string))
    (header : option (list string)) : list (list string) :=
  match header with
  | Some (h :: hs) => (h :: hs) :: data
  | _ => data
  end.

Definition columns (data : list (list string)) : nat :=
  match data with
  | [] => 0
  | first :: rest => foldl (λ m row, m `min` length row) (length first) rest
  end.

(** ** The commands of the driver *)

(** [str(path)] *)
Definition path_str (p : Path) : string :=
  let s := root p +:+ join "/" (parts p) in
  if String.eqb s EmptyString then "." else s.

(** How a command ends: with its return value, or with the exception that
    escapes it. *)
Inductive status :=
  | Exit (code : nat)
  | Uncaught (e : exn)
  | UncaughtIndexError.

(** What a command wrote and how it ended. *)
Record run := mkRun {
  stdout : list string;
  stderr : list string;
  ended : status
}.

(** The table row of a workflow in [cmd_list_workflows]. *)
Definition workflow_row (wf : Workflow.t) : list string :=
  [ Workflow.name wf;
    join "," (Workflow.languages wf);
    join ", " (Workflow.files wf) ].

(** [cmd_list_workflows], with [args.workflows] and the manifest found
    there. *)
Definition cmd_list_workflows (is_file : Path → bool) (workflows : Path)
    (manifest : manifest_t) : run :=
  let '(err, r) := load_workflows is_file workflows manifest in
  match r with
  | Raise e => mkRun [] err (Uncaught e)
  | Ok (wfs, _) =>
      let '(lines, e) :=
        print_table (workflow_row <$> wfs)
          (Some ["NAME"; "LANGUAGES"; "FILES"]) in
      mkRun ("Workflows:" :: lines) err
        (match e with Some _ => UncaughtIndexError | None => Exit 0 end)
  end.

(** The table row of a repository in [cmd_list_repos]. *)
Definition repository_row (r : Repository.t) : list string :=
  [ name (Repository.path r);
    join ", " (Repository.languages r);
    join ", " (Repository.workflows r) ].

(** The line feed character. *)
Definition LF : string := String "010"%char EmptyString.

(** [cmd_list_repos], with [args.target_root], the entries found there
    and [args.ignore_repos]. *)
Definition cmd_list_repos (target_root : Path) (entries : entries_t)
    (ignore_repos : list string) : run :=
  let title := "Repositories in " +:+ path_str target_root +:+ ":" +:+ LF in
  match find_repositories target_root entries ignore_repos with
  | Raise e => mkRun [title] [] (Uncaught e)
  | Ok repos =>
      let '(lines, e) :=
        print_table (repository_row <$> repos)
          (Some ["NAME"; "LANGUAGES"; "EXISTING WORKFLOWS"]) in
      mkRun (title :: lines) []
        (match e with Some _ => UncaughtIndexError | None => Exit 0 end)
  end.

(** ["Copy {} -> {}".format(src, dest)] *)
Definition copy_line (o : operation) : string :=
  "Copy " +:+ path_str o.1 +:+ " -> " +:+ path_str o.2.

Section cmd_put.
(** The file system [cmd_put] writes to, with the two library calls it
    makes: [dest.parent.mkdir(parents=True, exist_ok=True)] and
    [shutil.copyfile(src, dest)], each returning the file system it
    leaves or the error it raises. *)
Context {World Error : Type}.
Variable mkdir : World → Path → World + Error.
Variable copyfile : World → Path → Path → World + Error.

(** How [cmd_put] ends. *)
Inductive put_status :=
  | PutExit (code : nat)
  | PutUncaught (e : exn)
  | PutFailed (e : Error).

(** The loop over the operations when not in a dry run: the lines
    printed, the file system left, and the error that ended the loop. *)
Fixpoint apply_operations (verbose : bool) (ops : list operation)
    (w : World) : list string * World * option Error :=
  match ops with
  | [] => ([], w, None)
  | (src, dest) :: rest =>
      match mkdir w (parent dest) with
      | inr e => ([], w, Some e)
      | inl w1 =>
          match copyfile w1 src dest with
          | inr e => ([], w1, Some e)
          | inl w2 =>
              let '(out, w', e) := apply_operations verbose rest w2 in
              ((if verbose then [copy_line (src, dest)] else []) ++ out,
               w', e)
          end
      end
  end.

(** [cmd_put]: standard output, standard error, the file system left and
    how the command ended. *)
Definition cmd_put (is_file : Path → bool) (workflows : Path)
    (manifest : manifest_t) (target_root : Path) (entries : entries_t)
    (ignore_repos : list string) (dry_run verbose : bool) (w : World)
  : list string * list string * World * put_status :=
  let '(err, r) := load_workflows is_file workflows manifest in
  match r with
  | Raise e => ([], err, w, PutUncaught e)
  | Ok (_, workflows_per_language) =>
      match find_repositories target_root entries ignore_repos with
      | Raise e => ([], err, w, PutUncaught e)
      | Ok repos =>
          let ops := determine_operations repos workflows_per_language in
          if dry_run then
            ((YELLOW +:+ "Dry run, not actually copying files.")
               :: (copy_line <$> ops), err, w, PutExit 0)
          else
            let '(out, w', e) := apply_operations verbose ops w in
            (out, err, w',
             match e with Some e => PutFailed e | None => PutExit 0 end)
      end
  end.
End cmd_put.

(** A file system to run [cmd_put] on: the set of files present, given
    as a list; making a directory always succeeds, and a copy fails with
    the name of the source when the source is not there. *)
Module Disk.

Definition world : Type := list Path.

Definition mkdir (w : world) (p : Path) : world + string := inl w.

Definition copyfile (w : world) (src dest : Path) : world + string :=
  if decide (src ∈ w) then inl (dest :: w) else inr (path_str src).

End Disk.

(** A row fits the widths when it has a cell for every width and no such
    cell is longer than its width. *)
Definition fits (widths : list nat) (row : list string) : Prop :=
  ∀ i w, widths !! i = Some w →
         ∃ cell, row !! i = Some cell ∧ String.length cell ≤ w.

(** * Properties *)

(** ** pathlib on examples *)

Example parse_examples :
  parse "a/b.yml" = mkPath EmptyString ["a"; "b.yml"] /\
  parse "/a//b/./c/" = mkPath "/" ["a"; "b"; "c"] /\
  parse "//a" = mkPath "//" ["a"] /\
  parse "///a" = mkPath "/" ["a"] /\
  parse "." = mkPath EmptyString [] /\
  parse "../x" = mkPath EmptyString [".."; "x"].
Proof. repeat split; reflexivity. Qed.

Example suffix_examples :
  suffix_of_name "file.py" = ".py" /\
  suffix_of_name "a.tar.gz" = ".gz" /\
  suffix_of_name ".bashrc" = EmptyString /\
  suffix_of_name ".yml" = EmptyString /\
  suffix_of_name "trailing." = EmptyString /\
  suffix_of_name "README" = EmptyString /\
  suffix_of_name ".hidden.md" = ".md".
Proof. repeat split; reflexivity. Qed.

Example joinpath_examples :
  parse "/ws/py_pkg" </> ".github/workflows" </> "sub/ci.yml"
    = mkPath "/" ["ws"; "py_pkg"; ".github"; "workflows"; "sub"; "ci.yml"] /\
  parse "/ws" </> "/abs/x.yml" = mkPath "/" ["abs"; "x.yml"] /\
  parent (parse "wf/actions.toml") = parse "wf" /\
  name (child (parse "/ws") "py_pkg") = "py_pkg".
Proof. repeat split; reflexivity. Qed.

(** Closed decidable goals are settled by evaluation. *)
Ltac by_compute := apply (bool_decide_unpack _); vm_compute; exact I.

Example Scenario_load_workflows :
  load_workflows Scenario.is_file Scenario.manifest_file Scenario.manifest
  = ([YELLOW +:+ "Ignore invalid workflow doesnotexist.  Reason: missing.yml"],
     Ok ([Scenario.python_flake8; Scenario.git_fixup], Scenario.idx)).
Proof. vm_compute. reflexivity. Qed.

Example Scenario_find_repositories :
  find_repositories Scenario.base_dir Scenario.workspace ["py_cpp_pkg"]
  = Ok Scenario.repos.
Proof. vm_compute. reflexivity. Qed.

Example Scenario_determine_operations :
  determine_operations Scenario.repos Scenario.idx
  = [ (parse "/repo/workflows/git.yml",
       parse "/tmp/ws/empty_pkg/.github/workflows/git.yml");
      (parse "/repo/workflows/flake8.yml",
       parse "/tmp/ws/py_pkg/.github/workflows/flake8.yml");
      (parse "/repo/workflows/flake8-problem-matcher.json",
       parse "/tmp/ws/py_pkg/.github/workflows/flake8-problem-matcher.json");
      (parse "/repo/workflows/git.yml",
       parse "/tmp/ws/py_pkg/.github/workflows/git.yml");
      (parse "/repo/workflows/git.yml",
       parse "/tmp/ws/cpp_pkg/.github/workflows/git.yml") ].
Proof. vm_compute. reflexivity. Qed.

(** ** Facts about dictionaries *)

Section odict_facts.
Context {V : Type}.
Implicit Types (d : odict V) (k : string) (v : V).

Lemma od_lookup_is_Some d k : k ∈ keys d ↔ is_Some (od_lookup d k).
Proof.
  induction d as [|[k' v'] d IH]; simpl.
  - split; [by intros ?%elem_of_nil | by intros [? ?]].
  - case_decide as Hk; subst.
    + split; [by eauto | intros _; apply elem_of_cons; by left].
    + rewrite <- IH. unfold keys. simpl. rewrite elem_of_cons.
      split; [intros [?|?]; [congruence | done] | by right].
Qed.

Lemma od_lookup_None d k : k ∉ keys d ↔ od_lookup d k = None.
Proof. rewrite od_lookup_is_Some, eq_None_not_Some. done. Qed.

Lemma od_lookup_elem_of d k v : od_lookup d k = Some v → (k, v) ∈ d.
Proof.
  induction d as [|[k' v'] d IH]; simpl; [done|].
  case_decide; subst.
  - intros [= ->]. apply elem_of_cons; by left.
  - intros ?. apply elem_of_cons; right; auto.
Qed.

Lemma elem_of_od_lookup d k v : od_wf d → (k, v) ∈ d → od_lookup d k = Some v.
Proof.
  unfold od_wf, keys.
  induction d as [|[k' v'] d IH]; simpl; [by intros _ ?%elem_of_nil|].
  intros [Hk' Hd]%NoDup_cons [Heq|Hin]%elem_of_cons.
  - injection Heq as -> ->. by rewrite decide_True.
  - case_decide; subst; [|by auto].
    exfalso. apply Hk'. apply list_elem_of_fmap. by exists (k, v).
Qed.

Lemma dd_getitem_hit (dflt : V) d k :
  k ∈ keys d → dd_getitem dflt d k = (default dflt (od_lookup d k), d).
Proof.
  intros [v Hv]%od_lookup_is_Some. unfold dd_getitem. by rewrite Hv.
Qed.

Lemma keys_setitem d k v :
  keys (setitem d k v) = if decide (k ∈ keys d) then keys d else keys d ++ [k].
Proof.
  unfold keys. induction d as [|[k' v'] d IH]; csimpl; [done|].
  destruct (decide (k' = k)) as [->|Hne]; csimpl.
  - rewrite decide_True; [done | apply elem_of_cons; by left].
  - rewrite IH. destruct (decide (k ∈ d.*1)) as [Hin|Hin].
    + rewrite decide_True; [done | apply elem_of_cons; by right].
    + rewrite decide_False; [done|].
      intros [?|?]%elem_of_cons; congruence.
Qed.

Lemma od_wf_setitem d k v : od_wf d → od_wf (setitem d k v).
Proof.
  unfold od_wf. rewrite keys_setitem. case_decide as Hk; [done|].
  intros Hd. apply NoDup_app. split_and!; [done | | apply NoDup_singleton].
  intros x Hx Hx'. apply list_elem_of_singleton in Hx'. by subst.
Qed.

Lemma od_lookup_setitem d k v k' :
  od_lookup (setitem d k v) k' =
    if decide (k = k') then Some v else od_lookup d k'.
Proof.
  induction d as [|[k0 v0] d IH]; simpl.
  - repeat case_decide; congruence.
  - destruct (decide (k0 = k)) as [->|Hne]; simpl.
    + repeat case_decide; congruence.
    + rewrite IH. repeat case_decide; congruence.
Qed.
Lemma od_lookup_delitem_ne d k k' :
  k ≠ k' → od_lookup (delitem d k) k' = od_lookup d k'.
Proof.
  intros Hne. induction d as [|[k0 v0] d IH]; simpl; [done|].
  destruct (decide (k0 = k)) as [->|Hk0]; simpl.
  - by rewrite decide_False.
  - by rewrite IH.
Qed.

Lemma filter_keys_delitem (P : string → Prop) `{!∀ x, Decision (P x)} d k :
  ¬ P k → filter P (keys (delitem d k)) = filter P (keys d).
Proof.
  intros HP. unfold keys.
  induction d as [|[k0 v0] d IH]; csimpl; [done|].
  destruct (decide (k0 = k)) as [->|Hk0]; csimpl.
  - by rewrite filter_cons_False.
  - rewrite !filter_cons, IH. done.
Qed.
Lemma od_lookup_app_middle d1 d2 k v :
  k ∉ keys d1 → od_lookup (d1 ++ (k, v) :: d2) k = Some v.
Proof.
  unfold keys. induction d1 as [|[k0 v0] d1 IH]; csimpl; intros Hk.
  - by rewrite decide_True.
  - apply not_elem_of_cons in Hk as [Hne Hk].
    rewrite decide_False by done. by apply IH.
Qed.

Lemma delitem_app_middle d1 d2 k v :
  k ∉ keys d1 → delitem (d1 ++ (k, v) :: d2) k = d1 ++ d2.
Proof.
  unfold keys. induction d1 as [|[k0 v0] d1 IH]; csimpl; intros Hk.
  - by rewrite decide_True.
  - apply not_elem_of_cons in Hk as [Hne Hk].
    rewrite decide_False by done. by rewrite IH.
Qed.

Lemma keys_filter_sublist (P : string * V → Prop) `{!∀ x, Decision (P x)} d :
  keys (filter P d) `sublist_of` keys d.
Proof. unfold keys. apply fmap_sublist, sublist_filter. Qed.

Lemma od_wf_filter (P : string * V → Prop) `{!∀ x, Decision (P x)} d :
  od_wf d → od_wf (filter P d).
Proof.
  unfold od_wf. intros Hd.
  eapply sublist_NoDup; [exact Hd | apply keys_filter_sublist].
Qed.

Lemma od_wf_unique d k v1 v2 :
  od_wf d → (k, v1) ∈ d → (k, v2) ∈ d → v1 = v2.
Proof.
  intros Hwf H1%(elem_of_od_lookup _ _ _ Hwf) H2%(elem_of_od_lookup _ _ _ Hwf).
  congruence.
Qed.

Lemma elem_of_keys d k : k ∈ keys d ↔ ∃ v, (k, v) ∈ d.
Proof.
  unfold keys. rewrite list_elem_of_fmap. split.
  - intros ([k' v] & -> & ?). by exists v.
  - intros (v & ?). by exists (k, v).
Qed.
End odict_facts.

(** ** The matcher computes the specified comprehension *)

Lemma file_loop_app repo ops wf :
  file_loop repo ops wf = ops ++ (op repo wf <$> Workflow.files wf).
Proof.
  unfold file_loop. revert ops.
  induction (Workflow.files wf) as [|f fs IH]; intros ops; simpl.
  - by rewrite app_nil_r.
  - rewrite IH. by rewrite <- app_assoc.
Qed.

Lemma bucket_loop_app repo ops (b : list Workflow.t) :
  foldl (file_loop repo) ops b
  = ops ++ (b ≫= λ wf, op repo wf <$> Workflow.files wf).
Proof.
  revert ops. induction b as [|wf b IH]; intros ops; simpl.
  - by rewrite app_nil_r.
  - rewrite IH, file_loop_app. by rewrite <- app_assoc.
Qed.

Lemma lang_loop_app repo ops (idx : index) langs :
  langs ⊆ keys idx →
  foldl (lang_step repo) (ops, idx) langs
  = (ops ++ (langs ≫= λ lang,
               bucket idx lang ≫= λ wf, op repo wf <$> Workflow.files wf),
     idx).
Proof.
  revert ops. induction langs as [|lang langs IH]; intros ops Hsub; simpl.
  - by rewrite app_nil_r.
  - unfold lang_step at 2. simpl.
    rewrite dd_getitem_hit by (apply Hsub, elem_of_cons; by left).
    rewrite IH by (intros x Hx; apply Hsub, elem_of_cons; by right).
    rewrite bucket_loop_app. by rewrite <- app_assoc.
Qed.

Lemma relevant_iff repo lang :
  relevant repo lang ↔ lang ∈ Repository.languages repo ∨ lang = "*".
Proof.
  unfold relevant. by rewrite elem_of_app, list_elem_of_singleton.
Qed.

Lemma repo_step_spec ops (idx : index) repo :
  repo_step (ops, idx) repo = (ops ++ spec_repo_operations idx repo, idx).
Proof.
  unfold repo_step. simpl. rewrite lang_loop_app.
  - unfold spec_repo_operations.
    by rewrite (list_filter_iff _ _ _ (relevant_iff repo)).
  - intros x [_ Hx]%list_elem_of_filter. done.
Qed.

Lemma determine_operations_run_spec repos (idx : index) :
  determine_operations_run repos idx = (spec_operations repos idx, idx).
Proof.
  unfold determine_operations_run, spec_operations.
  assert (∀ ops, foldl repo_step (ops, idx) repos
                 = (ops ++ (repos ≫= spec_repo_operations idx), idx)) as H.
  { induction repos as [|r repos IH]; intros ops; simpl.
    - by rewrite app_nil_r.
    - rewrite repo_step_spec, IH. by rewrite <- app_assoc. }
  apply (H []).
Qed.

Lemma determine_operations_spec repos (idx : index) :
  determine_operations repos idx = spec_operations repos idx.
Proof. unfold determine_operations. by rewrite determine_operations_run_spec. Qed.

Lemma elem_of_spec_repo_operations (idx : index) repo (o : operation) :
  o ∈ spec_repo_operations idx repo ↔
  ∃ lang wf wf_file,
    lang ∈ keys idx ∧
    (lang ∈ Repository.languages repo ∨ lang = "*") ∧
    wf ∈ bucket idx lang ∧
    wf_file ∈ Workflow.files wf ∧
    o = (Workflow.parent_dir wf </> wf_file,
         Repository.path repo </> ".github/workflows" </> wf_file).
Proof.
  unfold spec_repo_operations. rewrite list_elem_of_bind. split.
  - intros (lang & (wf & (f & -> & Hf)%list_elem_of_fmap & Hwf)%list_elem_of_bind
              & [Hrel Hkey]%list_elem_of_filter).
    by exists lang, wf, f.
  - intros (lang & wf & f & Hkey & Hrel & Hwf & Hf & ->).
    exists lang. split; [|by apply list_elem_of_filter].
    apply list_elem_of_bind. exists wf. split; [|done].
    apply list_elem_of_fmap. by exists f.
Qed.

Lemma bucket_elem_of_keys (idx : index) lang wf :
  wf ∈ bucket idx lang → lang ∈ keys idx.
Proof.
  unfold bucket. intros Hwf. apply od_lookup_is_Some.
  destruct (od_lookup idx lang); [by eauto | by apply elem_of_nil in Hwf].
Qed.

Lemma spec_repo_operations_delitem (idx : index) repo lang :
  lang ∉ Repository.languages repo → lang ≠ "*" →
  spec_repo_operations (delitem idx lang) repo = spec_repo_operations idx repo.
Proof.
  intros Hl Hstar. unfold spec_repo_operations.
  rewrite filter_keys_delitem by (intros [?|?]; done).
  apply Forall_bind_ext, Forall_forall.
  intros k [Hk _]%list_elem_of_filter. unfold bucket.
  rewrite od_lookup_delitem_ne; [done|]. intros ->. by destruct Hk.
Qed.

Lemma joinpath_relative p s :
  root (parse s) = EmptyString →
  p </> s = mkPath (root p) (parts p ++ parts (parse s)).
Proof. intros H. unfold joinpath. by rewrite H. Qed.

(** C1: [determine_operations] returns exactly the operations of the
    specified comprehension: for each repository, each key of the index
    that is a detected language of the repository or the wildcard, each
    workflow of that key's bucket and each file of the workflow, the pair
    of [parent_dir / file] and [path / ".github/workflows" / file].  In
    particular an operation is emitted exactly when such a repository,
    tag, workflow and file exist; a workflow in the wildcard bucket yields
    an operation for every repository, whatever its languages; a bucket
    whose tag is neither detected in a repository nor the wildcard can be
    deleted from the index without changing what is emitted for that
    repository; and the components of a relative file path follow the
    components [.github], [workflows] under the repository path, none of
    them dropped. *)
Theorem determine_operations_exact
    (repositories : list Repository.t) (idx : index) :
  determine_operations repositories idx = spec_operations repositories idx
  ∧ (∀ o : operation,
       o ∈ determine_operations repositories idx ↔
       ∃ repo lang wf wf_file,
         repo ∈ repositories ∧
         lang ∈ keys idx ∧
         (lang ∈ Repository.languages repo ∨ lang = "*") ∧
         wf ∈ bucket idx lang ∧
         wf_file ∈ Workflow.files wf ∧
         o = (Workflow.parent_dir wf </> wf_file,
              Repository.path repo </> ".github/workflows" </> wf_file))
  ∧ (∀ repo wf wf_file,
       repo ∈ repositories →
       wf ∈ bucket idx "*" →
       wf_file ∈ Workflow.files wf →
       (Workflow.parent_dir wf </> wf_file,
        Repository.path repo </> ".github/workflows" </> wf_file)
         ∈ determine_operations repositories idx)
  ∧ (∀ repo lang,
       lang ∉ Repository.languages repo →
       lang ≠ "*" →
       determine_operations [repo] (delitem idx lang)
       = determine_operations [repo] idx)
  ∧ (∀ repo wf_file,
       root (parse wf_file) = EmptyString →
       Repository.path repo </> ".github/workflows" </> wf_file
       = mkPath (root (Repository.path repo))
           (parts (Repository.path repo) ++ [".github"; "workflows"]
              ++ parts (parse wf_file))).
Proof.
  assert (∀ o : operation,
       o ∈ determine_operations repositories idx ↔
       ∃ repo lang wf wf_file,
         repo ∈ repositories ∧ lang ∈ keys idx ∧
         (lang ∈ Repository.languages repo ∨ lang = "*") ∧
         wf ∈ bucket idx lang ∧ wf_file ∈ Workflow.files wf ∧
         o = (Workflow.parent_dir wf </> wf_file,
              Repository.path repo </> ".github/workflows" </> wf_file))
    as Hiff.
  { intros o. rewrite determine_operations_spec. unfold spec_operations.
    rewrite list_elem_of_bind. split.
    - intros (repo & (lang & wf & f & H1 & H2 & H3 & H4 & H5)
                       %elem_of_spec_repo_operations & Hr).
      by exists repo, lang, wf, f.
    - intros (repo & lang & wf & f & Hr & H).
      exists repo. split; [|done].
      apply elem_of_spec_repo_operations. by exists lang, wf, f. }
  split_and!.
  - apply determine_operations_spec.
  - exact Hiff.
  - intros repo wf f Hrepo Hwf Hf. apply Hiff.
    exists repo, "*", wf, f. split_and!; try done.
    + by eapply bucket_elem_of_keys.
    + by right.
  - intros repo lang Hl Hstar. rewrite !determine_operations_spec.
    unfold spec_operations. rewrite !bind_singleton.
    by apply spec_repo_operations_delitem.
  - intros repo f Hrel. rewrite joinpath_relative by done.
    simpl. by rewrite <- app_assoc.
Qed.

Lemma determine_operations_exact_witness :
  (parse "/repo/workflows/git.yml",
   parse "/tmp/ws/empty_pkg/.github/workflows/git.yml")
    ∈ determine_operations Scenario.repos Scenario.idx
  ∧ determine_operations [Scenario.cpp_pkg] (delitem Scenario.idx "python")
    = determine_operations [Scenario.cpp_pkg] Scenario.idx
  ∧ Repository.path Scenario.py_pkg </> ".github/workflows" </> "sub/ci.yml"
    = parse "/tmp/ws/py_pkg/.github/workflows/sub/ci.yml".
Proof.
  destruct (determine_operations_exact Scenario.repos Scenario.idx)
    as (_ & _ & Hwild & Honly & Hkeep).
  split_and!.
  - apply (Hwild Scenario.empty_pkg Scenario.git_fixup "git.yml");
      by_compute.
  - apply (Honly Scenario.cpp_pkg "python"); [by_compute | discriminate].
  - rewrite (Hkeep Scenario.py_pkg "sub/ci.yml"); reflexivity.
Defined.

(** C9: a call of [determine_operations] leaves the index object as it
    found it (every lookup is on a key the index has, so the
    [defaultdict] never grows), calling it again on the objects the first
    call left returns the same list again, and the list is a function of
    the two arguments alone: equal repository lists and equal indexes give
    equal operation lists. *)
Theorem determine_operations_pure
    (repositories : list Repository.t) (idx : index) :
  (determine_operations_run repositories idx).2 = idx
  ∧ determine_operations repositories
      (determine_operations_run repositories idx).2
    = determine_operations repositories idx
  ∧ (∀ repositories' idx',
       repositories' = repositories → idx' = idx →
       determine_operations repositories' idx'
       = determine_operations repositories idx).
Proof.
  rewrite determine_operations_run_spec. simpl. split_and!; [done..|].
  by intros ?? -> ->.
Qed.

Lemma determine_operations_pure_witness :
  (determine_operations_run Scenario.repos Scenario.idx).2 = Scenario.idx
  ∧ determine_operations ([Scenario.empty_pkg] ++ [Scenario.py_pkg; Scenario.cpp_pkg])
      (setitem Scenario.idx "*" [Scenario.git_fixup])
    = determine_operations Scenario.repos Scenario.idx.
Proof.
  destruct (determine_operations_pure Scenario.repos Scenario.idx)
    as (Hsame & _ & Hfun).
  split; [exact Hsame|]. apply Hfun; reflexivity.
Defined.

Lemma occurrences_app `{EqDecision A} (x : A) l1 l2 :
  occurrences x (l1 ++ l2) = occurrences x l1 + occurrences x l2.
Proof. unfold occurrences. by rewrite filter_app, length_app. Qed.

Lemma occurrences_elem_of `{EqDecision A} (x : A) l :
  x ∈ l → 1 ≤ occurrences x l.
Proof.
  intros Hx. unfold occurrences.
  assert (x ∈ filter (λ y, y = x) l) as Hf by by apply list_elem_of_filter.
  destruct (filter (λ y, y = x) l); [by apply elem_of_nil in Hf | simpl; lia].
Qed.

Lemma occurrences_bind_ge {A} `{EqDecision B} (G : A → list B) (x : B) tags :
  ∀ l, NoDup tags → (∀ t, t ∈ tags → t ∈ l ∧ x ∈ G t) →
       length tags ≤ occurrences x (l ≫= G).
Proof.
  induction tags as [|t tags IH]; intros l Hnd H; simpl; [lia|].
  apply NoDup_cons in Hnd as [Ht Hnd].
  destruct (H t) as [Hl Hx]; [by left|].
  apply list_elem_of_split in Hl as (l1 & l2 & ->).
  specialize (IH (l1 ++ l2) Hnd).
  rewrite bind_app, bind_cons, !occurrences_app.
  rewrite bind_app, occurrences_app in IH.
  pose proof (occurrences_elem_of _ _ Hx).
  enough (length tags ≤ occurrences x (l1 ≫= G) + occurrences x (l2 ≫= G))
    by lia.
  apply IH. intros t' Ht'. destruct (H t') as [Hin Hx']; [by right|].
  split; [|done].
  apply elem_of_app in Hin as [?|[->|?]%elem_of_cons];
    [apply elem_of_app; by left | done | apply elem_of_app; by right].
Qed.

Lemma bucket_single_workflow (wf : Workflow.t) (tags : list string) t :
  t ∈ tags → bucket ((λ t, (t, [wf])) <$> tags) t = [wf].
Proof.
  unfold bucket. induction tags as [|t' tags IH]; [by intros ?%elem_of_nil|].
  csimpl. destruct (decide (t' = t)) as [->|Hne]; [done|].
  intros [?|?]%elem_of_cons; [congruence | by apply IH].
Qed.

Lemma once_per_tag_count (idx : index) repos repo wf wf_file tags :
  repo ∈ repos →
  NoDup tags →
  Forall (λ lang, (lang ∈ Repository.languages repo ∨ lang = "*")
                  ∧ wf ∈ bucket idx lang) tags →
  wf_file ∈ Workflow.files wf →
  length tags ≤
    occurrences
      (Workflow.parent_dir wf </> wf_file,
       Repository.path repo </> ".github/workflows" </> wf_file)
      (determine_operations repos idx).
Proof.
  intros Hrepo Hnd Htags Hf. rewrite determine_operations_spec.
  apply list_elem_of_split in Hrepo as (r1 & r2 & ->).
  unfold spec_operations.
  rewrite bind_app, bind_cons, !occurrences_app.
  enough (length tags ≤ occurrences
            (Workflow.parent_dir wf </> wf_file,
             Repository.path repo </> ".github/workflows" </> wf_file)
            (spec_repo_operations idx repo)) by lia.
  unfold spec_repo_operations. apply occurrences_bind_ge; [done|].
  intros t Ht. rewrite Forall_forall in Htags.
  destruct (Htags t Ht) as [Hrel Hwf]. split.
  - apply list_elem_of_filter. split; [done|].
    by eapply bucket_elem_of_keys.
  - apply list_elem_of_bind. exists wf. split; [|done].
    apply list_elem_of_fmap. by exists wf_file.
Qed.

Lemma once_per_tag_alone repo wf tags :
  Forall (λ lang, lang ∈ Repository.languages repo ∨ lang = "*") tags →
  determine_operations [repo] ((λ t, (t, [wf])) <$> tags)
  = tags ≫= λ _, op repo wf <$> Workflow.files wf.
Proof.
  intros Hrel. rewrite determine_operations_spec. unfold spec_operations.
  rewrite bind_singleton. unfold spec_repo_operations, keys.
  rewrite <- list_fmap_compose.
  replace (fst ∘ (λ t : string, (t, [wf]))) with (@id string) by done.
  rewrite list_fmap_id.
  replace (filter _ tags) with tags.
  - apply Forall_bind_ext, Forall_forall. intros t Ht.
    rewrite bucket_single_workflow by done. rewrite bind_singleton. done.
  - clear -Hrel. induction Hrel as [|t tags Ht _ IH]; [done|].
    rewrite filter_cons_True by done. by f_equal.
Qed.

(** C10: a workflow that sits in the buckets of several distinct tags, all
    of them detected in a repository or the wildcard, has each of its file
    operations for that repository emitted at least once per such tag:
    with two or more tags the same (source, destination) pair occurs two
    or more times in the output.  For an index that lists one workflow
    alone under the given tags, all relevant to the repository, the output
    is the block of the workflow's file operations repeated once per
    tag. *)
Theorem determine_operations_once_per_tag
    (repositories : list Repository.t) (idx : index)
    (repo : Repository.t) (wf : Workflow.t) (wf_file : string)
    (tags : list string) :
  (repo ∈ repositories →
   NoDup tags →
   Forall (λ lang, (lang ∈ Repository.languages repo ∨ lang = "*")
                   ∧ wf ∈ bucket idx lang) tags →
   wf_file ∈ Workflow.files wf →
   length tags ≤
     occurrences
       (Workflow.parent_dir wf </> wf_file,
        Repository.path repo </> ".github/workflows" </> wf_file)
       (determine_operations repositories idx))
  ∧ (Forall (λ lang, lang ∈ Repository.languages repo ∨ lang = "*") tags →
     determine_operations [repo] ((λ t, (t, [wf])) <$> tags)
     = tags ≫= λ _,
         (λ wf_file,
            (Workflow.parent_dir wf </> wf_file,
             Repository.path repo </> ".github/workflows" </> wf_file))
           <$> Workflow.files wf).
Proof.
  split.
  - apply once_per_tag_count.
  - apply once_per_tag_alone.
Qed.

Lemma determine_operations_once_per_tag_witness :
  2 ≤ occurrences
        (parse "/repo/workflows/lint.yml",
         parse "/tmp/ws/py_pkg/.github/workflows/lint.yml")
        (determine_operations Scenario.repos Scenario.idx_multi)
  ∧ determine_operations [Scenario.py_pkg] Scenario.idx_multi
    = [ (parse "/repo/workflows/lint.yml",
         parse "/tmp/ws/py_pkg/.github/workflows/lint.yml");
        (parse "/repo/workflows/lint.yml",
         parse "/tmp/ws/py_pkg/.github/workflows/lint.yml") ].
Proof.
  destruct (determine_operations_once_per_tag Scenario.repos
              Scenario.idx_multi Scenario.py_pkg Scenario.lint "lint.yml"
              ["python"; "*"]) as [Hcount Halone].
  split.
  - apply Hcount; by_compute.
  - apply Halone. by_compute.
Defined.

Example Scenario_multi_operations :
  load_workflows Scenario.is_file Scenario.manifest_file Scenario.manifest_multi
  = ([], Ok ([Scenario.lint], Scenario.idx_multi))
  ∧ determine_operations [Scenario.py_pkg] Scenario.idx_multi
    = [ (parse "/repo/workflows/lint.yml",
         parse "/tmp/ws/py_pkg/.github/workflows/lint.yml");
        (parse "/repo/workflows/lint.yml",
         parse "/tmp/ws/py_pkg/.github/workflows/lint.yml") ].
Proof. split; vm_compute; reflexivity. Qed.

(** ** The loader *)

Section loader_facts.
Variable is_file : Path → bool.
Implicit Types (st : loader_state) (info : info_t) (idx : index).

Lemma load_entry_eq parent_dir st name info :
  load_entry is_file parent_dir st (name, info) =
    match entry_files info with
    | None => Raise (KeyError "file")
    | Some files =>
        let wf :=
          Workflow.mk name parent_dir files (entry_languages info) in
        match validate is_file wf with
        | Raise e => Ok ([diagnostic name e], st)
        | Ok _ =>
            Ok ([], mkLoader (workflows st ++ [wf])
                      (add_workflow (workflows_per_language st) wf))
        end
    end.
Proof.
  unfold load_entry, entry_files, entry_languages, add_workflow,
    info_getitem, _MANIFEST_KEY_FILE, _MANIFEST_KEY_LANGUAGE.
  destruct (info !! "language") as [lv|] eqn:Hl;
    destruct (info !! "file") as [fv|] eqn:Hf; simpl;
    repeat (rewrite ?lookup_insert_eq, ?lookup_insert_ne, ?Hl, ?Hf by done;
            simpl);
    done.
Qed.

Lemma load_loop_app parent_dir st l1 l2 :
  load_loop is_file parent_dir st (l1 ++ l2) =
    match load_loop is_file parent_dir st l1 with
    | (e1, Ok st1) =>
        let '(e2, r) := load_loop is_file parent_dir st1 l2 in (e1 ++ e2, r)
    | (e1, Raise x) => (e1, Raise x)
    end.
Proof.
  revert st. induction l1 as [|entry l1 IH]; intros st;
    cbn [load_loop app].
  - by destruct (load_loop is_file parent_dir st l2).
  - destruct (load_entry is_file parent_dir st entry) as [[out st']|x];
      [|done].
    rewrite IH.
    destruct (load_loop is_file parent_dir st' l1) as [e1 [st1|x]]; [|done].
    destruct (load_loop is_file parent_dir st1 l2) as [e2 r].
    by rewrite app_assoc.
Qed.

Lemma load_loop_Ok parent_dir st items err st' :
  load_loop is_file parent_dir st items = (err, Ok st') →
  st' = mkLoader
          (workflows st ++ omap (accepted is_file parent_dir) items)
          (foldl add_workflow (workflows_per_language st)
             (omap (accepted is_file parent_dir) items)).
Proof.
  revert st err. induction items as [|[name info] items IH];
    intros st err; cbn [load_loop omap list_omap].
  - intros [= _ <-]. destruct st. simpl. by rewrite app_nil_r.
  - rewrite load_entry_eq. unfold accepted. simpl.
    destruct (entry_files info) as [files|]; simpl; [|done].
    destruct (validate is_file _) as [[]|e] eqn:Hv.
    + destruct (load_loop _ _ _ items) as [e2 r] eqn:Hloop.
      intros [= _ ->]. apply IH in Hloop as ->. simpl.
      by rewrite <- app_assoc.
    + destruct (load_loop _ _ _ items) as [e2 r] eqn:Hloop.
      intros [= _ ->]. by apply IH in Hloop as ->.
Qed.
Lemma load_workflows_Ok manifest_file manifest err wfs idx :
  load_workflows is_file manifest_file manifest = (err, Ok (wfs, idx)) →
  wfs = omap (accepted is_file (parent manifest_file)) manifest
  ∧ idx = foldl add_workflow [] wfs.
Proof.
  unfold load_workflows.
  destruct (load_loop _ _ _ manifest) as [e [st|x]] eqn:Hloop; simpl;
    [|done].
  intros [= _ <- <-]. apply load_loop_Ok in Hloop as ->. done.
Qed.

Lemma validate_files_Raise parent_dir files e :
  validate_files is_file parent_dir files = Raise e →
  ∃ f, e = FileNotFoundError f ∧ f ∈ files
       ∧ is_file (parent_dir </> f) = false.
Proof.
  induction files as [|f files IH]; simpl; [done|].
  destruct (is_file (parent_dir </> f)) eqn:Hf; simpl.
  - intros (f' & ? & ? & ?)%IH. exists f'. split_and!; [done| |done].
    by apply elem_of_cons; right.
  - intros [= <-]. exists f. split_and!; [done| |done].
    by apply elem_of_cons; left.
Qed.


Lemma accepted_name parent_dir entry wf :
  accepted is_file parent_dir entry = Some wf → Workflow.name wf = entry.1.
Proof.
  unfold accepted. destruct (entry_files entry.2); simpl; [|done].
  destruct (validate _ _); [|done]. by intros [= <-].
Qed.

Lemma accepted_names_sublist parent_dir (items : manifest_t) :
  Workflow.name <$> omap (accepted is_file parent_dir) items
    `sublist_of` items.*1.
Proof.
  induction items as [|entry items IH]; csimpl; [done|].
  destruct (accepted is_file parent_dir entry) as [wf|] eqn:Hacc; csimpl.
  - rewrite (accepted_name _ _ _ Hacc). by apply sublist_skip.
  - by apply sublist_cons.
Qed.
End loader_facts.

(** ** The index the loader builds *)

Lemma bucket_index_append (idx : index) lang wf lang' :
  bucket (index_append idx lang wf) lang'
  = bucket idx lang' ++ (if decide (lang = lang') then [wf] else []).
Proof.
  unfold bucket, index_append, dd_getitem.
  destruct (od_lookup idx lang) as [b|] eqn:Hb;
    rewrite !od_lookup_setitem;
    destruct (decide (lang = lang')) as [<-|Hne]; simpl;
    rewrite ?Hb, ?app_nil_r; done.
Qed.

Lemma od_wf_index_append (idx : index) lang wf :
  od_wf idx → od_wf (index_append idx lang wf).
Proof.
  unfold index_append, dd_getitem. intros Hwf.
  destruct (od_lookup idx lang); by repeat apply od_wf_setitem.
Qed.

Lemma bucket_add_workflow (idx : index) wf lang :
  bucket (add_workflow idx wf) lang = bucket idx lang ++ copies lang wf.
Proof.
  unfold add_workflow, copies. revert idx.
  induction (Workflow.languages wf) as [|l ls IH]; intros idx; csimpl.
  - by rewrite app_nil_r.
  - rewrite IH, bucket_index_append, filter_cons.
    destruct (decide (l = lang)); csimpl; by rewrite <- ?app_assoc, ?app_nil_r.
Qed.

Lemma od_wf_add_workflow (idx : index) wf :
  od_wf idx → od_wf (add_workflow idx wf).
Proof.
  unfold add_workflow. revert idx.
  induction (Workflow.languages wf) as [|l ls IH]; intros idx Hwf; simpl;
    [done|].
  by apply IH, od_wf_index_append.
Qed.

Lemma bucket_foldl_add_workflow (idx : index) wfs lang :
  bucket (foldl add_workflow idx wfs) lang
  = bucket idx lang ++ (wfs ≫= copies lang).
Proof.
  revert idx. induction wfs as [|wf wfs IH]; intros idx; csimpl.
  - by rewrite app_nil_r.
  - by rewrite IH, bucket_add_workflow, <- app_assoc.
Qed.

Lemma od_wf_foldl_add_workflow (idx : index) wfs :
  od_wf idx → od_wf (foldl add_workflow idx wfs).
Proof.
  revert idx. induction wfs as [|wf wfs IH]; intros idx Hwf; simpl; [done|].
  by apply IH, od_wf_add_workflow.
Qed.

Lemma copies_NoDup lang wf :
  NoDup (Workflow.languages wf) →
  copies lang wf = if decide (lang ∈ Workflow.languages wf) then [wf] else [].
Proof.
  unfold copies. induction (Workflow.languages wf) as [|l ls IH]; [done|].
  intros [Hl Hls]%NoDup_cons. rewrite filter_cons.
  destruct (decide (l = lang)) as [->|Hne]; csimpl.
  - rewrite decide_True by (apply elem_of_cons; by left).
    rewrite IH by done. by rewrite decide_False.
  - rewrite IH by done.
    destruct (decide (lang ∈ ls)) as [Hin|Hin].
    + rewrite decide_True; [done | apply elem_of_cons; by right].
    + rewrite decide_False; [done|].
      intros [?|?]%elem_of_cons; congruence.
Qed.

Lemma copies_elem_of lang wf wf' : wf' ∈ copies lang wf → wf' = wf.
Proof. unfold copies. by intros (? & -> & _)%list_elem_of_fmap. Qed.

Lemma elem_of_copies lang wf :
  lang ∈ Workflow.languages wf → wf ∈ copies lang wf.
Proof.
  intros Hl. unfold copies. apply list_elem_of_fmap. exists lang.
  split; [done|]. by apply list_elem_of_filter.
Qed.

Lemma bind_copies_NoDup lang (wfs : list Workflow.t) :
  Forall (λ wf, NoDup (Workflow.languages wf)) wfs →
  wfs ≫= copies lang = filter (λ wf, lang ∈ Workflow.languages wf) wfs.
Proof.
  induction 1 as [|wf wfs Hwf _ IH]; [done|].
  rewrite bind_cons, filter_cons, IH, copies_NoDup by done.
  by destruct (decide (lang ∈ Workflow.languages wf)).
Qed.

Lemma load_workflows_bucket is_file manifest_file manifest err wfs idx lang :
  load_workflows is_file manifest_file manifest = (err, Ok (wfs, idx)) →
  bucket idx lang = wfs ≫= copies lang.
Proof.
  intros [_ ->]%load_workflows_Ok. by rewrite bucket_foldl_add_workflow.
Qed.

(** C7: when [load_workflows] returns, the workflow list is the list of
    the accepted entries in the manifest's order (so its names are a
    subsequence of the manifest's keys), and the bucket of every tag holds
    the workflows declared for that tag in the order of the workflow list:
    one copy of a workflow per time the tag is written in its [language]
    list, hence exactly the workflows of the list that have the tag, in
    list order, when no entry repeats a tag.  No tag is a key of the index
    twice. *)
Theorem load_workflows_order
    (is_file : Path → bool) (manifest_file : Path) (manifest : manifest_t)
    (err : list string) (wfs : list Workflow.t) (idx : index) :
  load_workflows is_file manifest_file manifest = (err, Ok (wfs, idx)) →
  wfs = omap (accepted is_file (parent manifest_file)) manifest
  ∧ Workflow.name <$> wfs `sublist_of` manifest.*1
  ∧ (∀ lang, bucket idx lang = wfs ≫= copies lang)
  ∧ (Forall (λ wf, NoDup (Workflow.languages wf)) wfs →
     ∀ lang,
       bucket idx lang = filter (λ wf, lang ∈ Workflow.languages wf) wfs
       ∧ bucket idx lang `sublist_of` wfs)
  ∧ od_wf idx.
Proof.
  intros Hload.
  pose proof (load_workflows_Ok _ _ _ _ _ _ Hload) as [Hwfs Hidx].
  split_and!; [| | | |rewrite Hidx; apply od_wf_foldl_add_workflow, NoDup_nil_2].
  - done.
  - rewrite Hwfs. apply accepted_names_sublist.
  - intros lang. by eapply load_workflows_bucket.
  - intros Hnd lang.
    rewrite (load_workflows_bucket _ _ _ _ _ _ lang Hload).
    rewrite bind_copies_NoDup by done. split; [done|]. apply sublist_filter.
Qed.

Lemma load_workflows_order_witness :
  [Scenario.python_flake8; Scenario.git_fixup]
  = omap (accepted Scenario.is_file (parent Scenario.manifest_file))
      Scenario.manifest
  ∧ ["python_flake8"; "git_fixup"] `sublist_of` Scenario.manifest.*1
  ∧ bucket Scenario.idx "python"
    = filter (λ wf, "python" ∈ Workflow.languages wf)
        [Scenario.python_flake8; Scenario.git_fixup].
Proof.
  destruct (load_workflows_order Scenario.is_file Scenario.manifest_file
              Scenario.manifest
              [diagnostic "doesnotexist" (FileNotFoundError "missing.yml")]
              [Scenario.python_flake8; Scenario.git_fixup] Scenario.idx)
    as (Hwfs & Hnames & _ & Hfilter & _); [vm_compute; reflexivity|].
  split_and!; [exact Hwfs | exact Hnames |].
  apply Hfilter. by_compute.
Defined.

(** ** Entries the loader rejects *)

Section rejected.
Variable is_file : Path → bool.


Lemma load_loop_no_file_key parent_dir (st : loader_state) name
    (info : info_t) post :
  info !! _MANIFEST_KEY_FILE = None →
  load_loop is_file parent_dir st ((name, info) :: post)
  = ([], Raise (KeyError "file")).
Proof.
  intros Hfv. cbn [load_loop]. rewrite load_entry_eq. unfold entry_files.
  by rewrite Hfv.
Qed.

Lemma load_workflows_loop manifest_file manifest :
  load_workflows is_file manifest_file manifest
  = ((load_loop is_file (parent manifest_file) (mkLoader [] []) manifest).1,
     st ← (load_loop is_file (parent manifest_file) (mkLoader [] [])
             manifest).2;
     mret (workflows st, workflows_per_language st)).
Proof. unfold load_workflows. by destruct (load_loop _ _ _ manifest). Qed.

Lemma load_workflows_elem_of_bucket manifest_file manifest err wfs idx lang wf :
  load_workflows is_file manifest_file manifest = (err, Ok (wfs, idx)) →
  wf ∈ bucket idx lang → wf ∈ wfs.
Proof.
  intros Hload. rewrite (load_workflows_bucket _ _ _ _ _ _ lang Hload).
  by intros (wf' & ->%copies_elem_of & ?)%list_elem_of_bind.
Qed.

End rejected.

(** C4, what the code does: the [file] key is read before the [try], so
    an entry without it raises [KeyError] out of [load_workflows]; when
    the entries before it load, the call ends with that exception and
    returns nothing, whatever follows the entry. *)
Theorem load_workflows_missing_file_key_aborts
    (is_file : Path → bool) (manifest_file : Path)
    (pre post : manifest_t) (name : string) (info : info_t)
    (err : list string) (r : list Workflow.t * index) :
  info !! _MANIFEST_KEY_FILE = None →
  load_workflows is_file manifest_file pre = (err, Ok r) →
  load_workflows is_file manifest_file (pre ++ (name, info) :: post)
  = (err, Raise (KeyError "file")).
Proof.
  intros Hfv. rewrite !load_workflows_loop, !load_loop_app.
  destruct (load_loop is_file _ _ pre) as [e1 [st1|x]]; [|done].
  intros [= <- _]. rewrite load_loop_no_file_key by done. simpl.
  by rewrite app_nil_r.
Qed.

Lemma load_workflows_missing_file_key_aborts_witness :
  load_workflows Scenario.is_file Scenario.manifest_file
    Scenario.manifest_no_file
  = ([], Raise (KeyError "file")).
Proof.
  apply (load_workflows_missing_file_key_aborts Scenario.is_file
           Scenario.manifest_file
           [ ("git_fixup", {[ "file" := Scalar "git.yml" ]}) ]
           [ ("lint", {[ "file" := Scalar "lint.yml";
                         "language" := Scalar "python" ]}) ]
           "broken" {[ "language" := Scalar "python" ]}
           [] ([Scenario.git_fixup], [("*", [Scenario.git_fixup])]));
    vm_compute; reflexivity.
Defined.

(** ** Order of the operations *)

Section precedes.
Context {A : Type}.
Implicit Types (x y : A) (l : list A).





End precedes.

Section precedes_bind.
Context {A B : Type}.
Implicit Types (x y : A) (l : list A).



End precedes_bind.

Lemma elem_of_spec_operations_intro (idx : index) repos repo lang wf wf_file :
  repo ∈ repos → relevant repo lang → wf ∈ bucket idx lang →
  wf_file ∈ Workflow.files wf →
  op repo wf wf_file ∈ determine_operations repos idx.
Proof.
  intros Hrepo Hrel%relevant_iff Hwf Hf.
  rewrite determine_operations_spec. unfold spec_operations.
  apply list_elem_of_bind. exists repo. split; [|done].
  apply elem_of_spec_repo_operations. exists lang, wf, wf_file.
  split_and!; try done. by eapply bucket_elem_of_keys.
Qed.


(** ** The scanner: language detection *)

Section detection.
Implicit Types (cl : odict (list string)) (det : list string).

Lemma check_lang_step sfx done k exts todo det :
  k ∉ keys done →
  check_lang sfx (done ++ (k, exts) :: todo, det) k
  = if decide (sfx ∈ exts) then Ok (done ++ todo, det ++ [k])
    else Ok (done ++ (k, exts) :: todo, det).
Proof.
  intros Hk. unfold check_lang, getitem. cbn [fst snd].
  rewrite od_lookup_app_middle by done. cbn [mbind result_bind].
  by rewrite delitem_app_middle.
Qed.

(** One pass of the inner loop over a snapshot of the keys: the entries
    whose extension list has the suffix are deleted and their tags
    appended, in the order of the dictionary. *)
Lemma check_pass sfx done todo det :
  od_wf (done ++ todo) →
  for_each (check_lang sfx) (done ++ todo, det) (keys todo)
  = Ok (done ++ filter (λ e, sfx ∉ e.2) todo,
        det ++ keys (filter (λ e, sfx ∈ e.2) todo)).
Proof.
  revert done det. induction todo as [|[k exts] todo IH]; intros done det Hwf.
  - rewrite !filter_nil. unfold keys. csimpl. by rewrite !app_nil_r.
  - assert (k ∉ keys done) as Hk.
    { unfold od_wf, keys in *. rewrite fmap_app in Hwf.
      apply NoDup_app in Hwf as (_ & Hdisj & _).
      intros Hin. apply (Hdisj k Hin). csimpl. by apply elem_of_cons; left. }
    change (keys ((k, exts) :: todo)) with (k :: keys todo).
    cbn [for_each]. rewrite check_lang_step by done.
    rewrite !filter_cons. cbn [snd].
    destruct (decide (sfx ∈ exts)) as [Hin|Hnin]; cbn [mbind result_bind].
    + rewrite decide_False by (by intros ?).
      rewrite IH.
      * unfold keys. csimpl. by rewrite <- app_assoc.
      * unfold od_wf, keys in *. rewrite fmap_app in *. csimpl in Hwf.
        apply NoDup_app in Hwf as (H1 & H2 & [H3 H4]%NoDup_cons).
        apply NoDup_app. split_and!; [done| |done].
        intros x Hx Hx'. apply (H2 x Hx). by apply elem_of_cons; right.
    + rewrite decide_True by done.
      replace (done ++ (k, exts) :: todo)
        with ((done ++ [(k, exts)]) ++ todo) by by rewrite <- app_assoc.
      rewrite IH by (by rewrite <- app_assoc).
      by rewrite <- app_assoc.
Qed.

Lemma check_pass_all sfx cl det :
  od_wf cl →
  for_each (check_lang sfx) (cl, det) (keys cl)
  = Ok (filter (λ e, sfx ∉ e.2) cl, det ++ keys (filter (λ e, sfx ∈ e.2) cl)).
Proof. intros Hwf. by apply (check_pass sfx [] cl det). Qed.

(** The loop over the files on a well-formed registry: it never raises,
    it appends every tag one of whose extensions is the suffix of one of
    the files, and it appends no tag twice. *)
Lemma scan_files_spec files cl det :
  od_wf cl →
  ∃ cl' D,
    scan_files files (cl, det) = Ok (cl', det ++ D)
    ∧ NoDup D
    ∧ ∀ k, k ∈ D ↔
           ∃ exts file, (k, exts) ∈ cl ∧ file ∈ files ∧ suffix file ∈ exts.
Proof.
  revert cl det. induction files as [|file files IH]; intros cl det Hwf.
  - exists cl, []. rewrite app_nil_r. split_and!; [done|constructor|].
    intros k. split; [by intros ?%elem_of_nil|].
    by intros (? & ? & _ & ?%elem_of_nil & _).
  - destruct (decide (cl = [])) as [->|Hne].
    { exists [], []. rewrite app_nil_r. split_and!; [done|constructor|].
      intros k. split; [by intros ?%elem_of_nil|].
      by intros (? & ? & ?%elem_of_nil & _). }
    assert (scan_files (file :: files) (cl, det)
            = st' ← for_each (check_lang (suffix file)) (cl, det) (keys cl);
              scan_files files st') as ->.
    { by destruct cl. }
    rewrite check_pass_all by done. cbn [mbind result_bind].
    set (hit := filter (λ e : string * list string, suffix file ∈ e.2) cl).
    set (rest := filter (λ e : string * list string, suffix file ∉ e.2) cl).
    destruct (IH rest (det ++ keys hit)) as (cl' & D & Hscan & HD & Hiff).
    { by apply od_wf_filter. }
    exists cl', (keys hit ++ D). rewrite app_assoc. split_and!; [done| |].
    + apply NoDup_app. split_and!; [by apply od_wf_filter| |done].
      intros k [v [Hv Hin]%list_elem_of_filter]%elem_of_keys
        (exts & f & [Hnv Hin']%list_elem_of_filter & _)%Hiff.
      simpl in *. by rewrite (od_wf_unique cl k v exts) in Hv.
    + intros k. rewrite elem_of_app, Hiff. split.
      * intros [[v [Hv Hin]%list_elem_of_filter]%elem_of_keys
               |(exts & f & [Hnv Hin]%list_elem_of_filter & Hf & Hs)].
        -- exists v, file. split_and!; [done| |done].
           by apply elem_of_cons; left.
        -- exists exts, f. split_and!; [done| |done].
           by apply elem_of_cons; right.
      * intros (exts & f & Hin & [->|Hf]%elem_of_cons & Hs).
        -- left. apply elem_of_keys. exists exts.
           by apply list_elem_of_filter.
        -- destruct (decide (suffix file ∈ exts)) as [Hhit|Hmiss].
           ++ left. apply elem_of_keys. exists exts.
              by apply list_elem_of_filter.
           ++ right. exists exts, f. split_and!; [|done..].
              by apply list_elem_of_filter.
Qed.
End detection.

(** ** The scanner: walking the tree *)

Lemma node_ind' (P : node → Prop) :
  P File → P Other →
  (∀ es : entries_t, Forall (λ e, P e.2) es → P (Dir es)) →
  ∀ nd, P nd.
Proof.
  intros HF HO HD. fix IH 1. intros [|es|]; [exact HF| |exact HO].
  apply HD. induction es as [|e es IHes]; constructor; [apply IH|exact IHes].
Qed.

Lemma rglob_node_Dir p (es : entries_t) :
  rglob_node p (Dir es)
  = iterdir p es ++ (es ≫= λ e, rglob_node (child p e.1) e.2).
Proof.
  cbn [rglob_node]. by f_equal.
Qed.

Lemma extend_child p n names :
  extend (child p n) names = extend p (n :: names).
Proof. unfold extend, child. simpl. by rewrite <- app_assoc. Qed.

Lemma child_extend p n : child p n = extend p [n].
Proof. done. Qed.

Lemma reach_nonempty es names nd : reach es names nd → names ≠ [].
Proof. by destruct 1. Qed.

Lemma last_app_nonempty (l names : list string) d :
  names ≠ [] → List.last (l ++ names) d = List.last names d.
Proof.
  intros Hne. induction l as [|x l IH]; [done|].
  simpl. destruct (l ++ names) eqn:Heq; [|done].
  by apply app_eq_nil in Heq as [_ ?].
Qed.

Lemma suffix_extend p names :
  names ≠ [] → suffix (extend p names) = extension names.
Proof.
  intros Hne. unfold suffix, extension, name, extend. simpl.
  by rewrite last_app_nonempty.
Qed.

Lemma name_child p n : name (child p n) = n.
Proof.
  unfold name, child. simpl. by rewrite last_app_nonempty.
Qed.

Lemma elem_of_rglob_node nd :
  ∀ p q x,
    (q, x) ∈ rglob_node p nd ↔
    ∃ es names, nd = Dir es ∧ reach es names x ∧ q = extend p names.
Proof.
  induction nd as [| |es IH] using node_ind'; intros p q x.
  - split; [by intros ?%elem_of_nil | by intros (? & ? & ? & _)].
  - split; [by intros ?%elem_of_nil | by intros (? & ? & ? & _)].
  - rewrite rglob_node_Dir, elem_of_app, list_elem_of_bind.
    rewrite Forall_forall in IH. split.
    + intros [([n c] & [= -> ->] & Hin)%list_elem_of_fmap
             |([n c] & Hq & Hin)].
      * exists es, [n]. split_and!; [done| |done]. by constructor.
      * apply (IH _ Hin) in Hq as (sub & names & Hc & Hr & ->).
        simpl in Hc. subst c. exists es, (n :: names).
        split_and!; [done| |by rewrite extend_child].
        by eapply reach_below.
    + intros (es' & names & [= <-] & Hr & ->).
      inversion Hr as [? n nd Hin|? n sub names' nd Hin Hr']; subst.
      * left. apply list_elem_of_fmap. by exists (n, x).
      * right. exists (n, Dir sub). split; [|done].
        apply (IH _ Hin). exists sub, names'.
        by rewrite extend_child.
Qed.

Lemma elem_of_rglob p es q x :
  (q, x) ∈ rglob p es ↔ ∃ names, reach es names x ∧ q = extend p names.
Proof.
  unfold rglob. rewrite elem_of_rglob_node. split.
  - intros (? & names & [= <-] & ? & ?). by exists names.
  - intros (names & ? & ?). by exists es, names.
Qed.

Lemma elem_of_enumerated_files p es q :
  q ∈ enumerated_files p es ↔
  ∃ names, reach es names File ∧ q = extend p names.
Proof.
  unfold enumerated_files. rewrite list_elem_of_fmap. split.
  - intros ([q' x] & -> & [Hf Hin]%list_elem_of_filter). simpl in *.
    destruct x; try done. by apply elem_of_rglob.
  - intros (names & Hr & ->). exists (extend p names, File).
    split; [done|]. apply list_elem_of_filter. split; [done|].
    apply elem_of_rglob. by exists names.
Qed.

Lemma LANGUAGES_wf : od_wf LANGUAGES.
Proof. unfold od_wf. by_compute. Qed.

Lemma scan_files_detects registry files :
  od_wf registry →
  ∃ cl langs,
    scan_files files (registry, []) = Ok (cl, langs)
    ∧ NoDup langs
    ∧ ∀ lang, lang ∈ langs ↔
              ∃ exts file,
                (lang, exts) ∈ registry ∧ file ∈ files ∧ suffix file ∈ exts.
Proof.
  intros Hwf.
  destruct (scan_files_spec files registry [] Hwf) as (cl & D & H & ? & ?).
  by exists cl, D.
Qed.

Lemma determine_language_in_spec registry dir_path entries :
  od_wf registry →
  ∃ langs,
    determine_language_in registry dir_path entries = Ok langs
    ∧ NoDup langs
    ∧ ∀ lang, lang ∈ langs ↔ recognised registry entries lang.
Proof.
  intros Hwf. unfold determine_language_in.
  fold (enumerated_files dir_path entries).
  destruct (scan_files_detects registry (enumerated_files dir_path entries)
              Hwf) as (cl & langs & -> & Hnd & Hiff).
  exists langs. split_and!; [done..|].
  intros lang. rewrite Hiff. unfold recognised. split.
  - intros (exts & file & Hreg & (names & Hr & ->)%elem_of_enumerated_files
              & Hs).
    rewrite suffix_extend in Hs by by eapply reach_nonempty.
    by exists exts, names.
  - intros (exts & names & Hreg & Hr & Hs).
    exists exts, (extend dir_path names). split_and!; [done| |].
    + apply elem_of_enumerated_files. by exists names.
    + by rewrite suffix_extend by by eapply reach_nonempty.
Qed.

(** C5: [determine_language] returns, for every directory, a list without
    duplicates that holds exactly the tags of [LANGUAGES] one of whose
    extensions is the extension of a regular file somewhere below the
    directory.  Hence any duplicate-free list of exactly those tags (the
    empty list when no file is recognised, [[L]], [[L1; L2]]) is a
    permutation of the result, and the result is the same up to order
    whatever the order in which the files are walked and for any directory
    holding the same files. *)
Theorem determine_language_detects (dir_path : Path) (entries : entries_t) :
  ∃ langs,
    determine_language dir_path entries = Ok langs
    ∧ NoDup langs
    ∧ (∀ lang, lang ∈ langs ↔ recognised LANGUAGES entries lang)
    ∧ ((∀ lang, ¬ recognised LANGUAGES entries lang) → langs = [])
    ∧ (∀ l, NoDup l →
            (∀ lang, lang ∈ l ↔ recognised LANGUAGES entries lang) →
            langs ≡ₚ l)
    ∧ (∀ files,
         files ≡ₚ enumerated_files dir_path entries →
         ∃ cl langs',
           scan_files files (LANGUAGES, []) = Ok (cl, langs')
           ∧ langs' ≡ₚ langs)
    ∧ (∀ dir_path' entries',
         (∀ names, reach entries' names File ↔ reach entries names File) →
         ∃ langs',
           determine_language dir_path' entries' = Ok langs'
           ∧ langs' ≡ₚ langs).
Proof.
  destruct (determine_language_in_spec LANGUAGES dir_path entries
              LANGUAGES_wf) as (langs & Hrun & Hnd & Hiff).
  exists langs. split_and!; [done..| | | |].
  - intros Hnone. destruct langs as [|lang langs]; [done|].
    exfalso. apply (Hnone lang), Hiff. by apply elem_of_cons; left.
  - intros l Hl Hliff. apply NoDup_Permutation; [done..|].
    intros lang. by rewrite Hiff, Hliff.
  - intros files Hperm.
    destruct (scan_files_detects LANGUAGES files LANGUAGES_wf)
      as (cl & langs' & Hscan & Hnd' & Hiff').
    exists cl, langs'. split; [done|].
    apply NoDup_Permutation; [done..|]. intros lang.
    rewrite Hiff', Hiff. unfold recognised. split.
    + intros (exts & file & Hreg & Hfile & Hs).
      rewrite Hperm in Hfile.
      apply elem_of_enumerated_files in Hfile as (names & Hr & ->).
      rewrite suffix_extend in Hs by by eapply reach_nonempty.
      by exists exts, names.
    + intros (exts & names & Hreg & Hr & Hs).
      exists exts, (extend dir_path names). split_and!; [done| |].
      * rewrite Hperm. apply elem_of_enumerated_files. by exists names.
      * by rewrite suffix_extend by by eapply reach_nonempty.
  - intros dir_path' entries' Hsame.
    destruct (determine_language_in_spec LANGUAGES dir_path' entries'
                LANGUAGES_wf) as (langs' & Hrun' & Hnd' & Hiff').
    exists langs'. split; [done|].
    apply NoDup_Permutation; [done..|]. intros lang.
    rewrite Hiff', Hiff. unfold recognised.
    split; intros (exts & names & ? & ?%Hsame & ?); by exists exts, names.
Qed.

Lemma determine_language_detects_witness :
  ∃ langs,
    determine_language (parse "/tmp/ws/py_cpp_pkg")
      [ ("file.py", File); ("main.cpp", File) ] = Ok langs
    ∧ ∃ cl langs',
        scan_files [ parse "/tmp/ws/py_cpp_pkg/main.cpp";
                     parse "/tmp/ws/py_cpp_pkg/file.py" ] (LANGUAGES, [])
        = Ok (cl, langs')
        ∧ langs' ≡ₚ langs.
Proof.
  destruct (determine_language_detects (parse "/tmp/ws/py_cpp_pkg")
              [ ("file.py", File); ("main.cpp", File) ])
    as (langs & Hrun & _ & _ & _ & _ & Horder & _).
  exists langs. split; [exact Hrun|].
  apply Horder. vm_compute. apply perm_swap.
Defined.

Example determine_language_examples :
  determine_language (parse "/tmp/ws/empty_pkg") [] = Ok []
  ∧ determine_language (parse "/tmp/ws/py_pkg")
      [ ("file.py", File); ("README", File); (".hidden.py", Dir []) ]
    = Ok ["python"]
  ∧ determine_language (parse "/tmp/ws/cpp_pkg")
      [ ("src", Dir [ ("main.cpp", File); ("util.hpp", File) ]) ]
    = Ok ["c++"]
  ∧ determine_language (parse "/tmp/ws/py_cpp_pkg")
      [ ("main.cpp", File); ("file.py", File) ]
    = Ok ["c++"; "python"]
  ∧ determine_language (parse "/tmp/ws/py_cpp_pkg")
      [ ("file.py", File); ("main.cpp", File) ]
    = Ok ["python"; "c++"].
Proof. repeat split; vm_compute; reflexivity. Qed.

(** ** The scanner: existing workflows and repositories *)

Lemma suffix_child p n : suffix (child p n) = suffix_of_name n.
Proof. unfold suffix. by rewrite name_child. Qed.

Lemma workflow_names p (es : entries_t) :
  name <$> (filter (λ f, is_file f.2 ∧ suffix f.1 = ".yml")
              (iterdir p es)).*1
  = (filter (λ e, is_file e.2 ∧ suffix_of_name e.1 = ".yml") es).*1.
Proof.
  unfold iterdir. induction es as [|[n nd] es IH]; [done|].
  rewrite fmap_cons, !filter_cons. cbn [fst snd].
  rewrite suffix_child.
  destruct (decide (is_file nd ∧ suffix_of_name n = ".yml")) as [[Hf Hs]|Hno].
  - csimpl. rewrite name_child. by f_equal.
  - done.
Qed.

Lemma find_existing_workflows_unfold repo_dir (entries : entries_t) :
  find_existing_workflows repo_dir entries =
    match od_lookup entries ".github" with
    | Some (Dir gh) =>
        match od_lookup gh "workflows" with
        | Some (Dir es) =>
            (filter (λ e, is_file e.2 ∧ suffix_of_name e.1 = ".yml") es).*1
        | _ => []
        end
    | _ => []
    end.
Proof.
  unfold find_existing_workflows.
  change (parts (parse _WORKFLOW_PATH)) with [".github"; "workflows"].
  cbn [walk_to].
  destruct (od_lookup entries ".github") as [[|gh|]|]; try done.
  destruct (od_lookup gh "workflows") as [[|es|]|]; try done.
  apply workflow_names.
Qed.

(** C6: without a directory [.github/workflows] directly under the
    repository the result is the empty list; with it, the result lists, in
    enumeration order, the names of the entries directly inside that
    directory that are regular files with extension [.yml]: a name is
    returned exactly when such an entry exists, so entries with another
    extension, subdirectories and anything below a subdirectory are left
    out. *)
Theorem find_existing_workflows_spec (repo_dir : Path) (entries : entries_t) :
  ((¬ ∃ gh es, od_lookup entries ".github" = Some (Dir gh)
               ∧ od_lookup gh "workflows" = Some (Dir es)) →
   find_existing_workflows repo_dir entries = [])
  ∧ (∀ gh es,
       od_lookup entries ".github" = Some (Dir gh) →
       od_lookup gh "workflows" = Some (Dir es) →
       find_existing_workflows repo_dir entries
       = (filter (λ e, is_file e.2 ∧ suffix_of_name e.1 = ".yml") es).*1
       ∧ (∀ n, n ∈ find_existing_workflows repo_dir entries ↔
               (n, File) ∈ es ∧ suffix_of_name n = ".yml")
       ∧ (∀ n, suffix_of_name n ≠ ".yml" →
               n ∉ find_existing_workflows repo_dir entries)
       ∧ (∀ n, (n, File) ∉ es →
               n ∉ find_existing_workflows repo_dir entries)).
Proof.
  rewrite find_existing_workflows_unfold. split.
  - intros Hno.
    destruct (od_lookup entries ".github") as [[|gh|]|]; try done.
    destruct (od_lookup gh "workflows") as [[|es|]|] eqn:Hes; try done.
    exfalso. apply Hno. by exists gh, es.
  - intros gh es -> ->.
    assert (∀ n, n ∈ (filter (λ e : string * node,
                         is_file e.2 ∧ suffix_of_name e.1 = ".yml") es).*1
                 ↔ (n, File) ∈ es ∧ suffix_of_name n = ".yml") as Hiff.
    { intros n. rewrite list_elem_of_fmap. split.
      - intros ([n' nd] & -> & [[Hf Hs] Hin]%list_elem_of_filter).
        simpl in *. by destruct nd.
      - intros [Hin Hs]. exists (n, File). split; [done|].
        by apply list_elem_of_filter. }
    split_and!; [done | exact Hiff | |].
    + intros n Hs [_ ?]%Hiff. done.
    + intros n Hn [? _]%Hiff. done.
Qed.

Lemma find_existing_workflows_spec_witness :
  find_existing_workflows (parse "/tmp/ws/py_pkg")
    [ ("file.py", File);
      (".github",
        Dir [ ("workflows",
                Dir [ ("exists1.yml", File);
                      ("exists2.yml", File);
                      ("some_problem_matcher.json", File);
                      ("old.yml", Dir [("nested.yml", File)]) ]) ]) ]
  = ["exists1.yml"; "exists2.yml"]
  ∧ find_existing_workflows (parse "/tmp/ws/cpp_pkg")
      [ (".github", Dir [ ("workflows", File) ]); ("ci.yml", File) ]
    = [].
Proof.
  split.
  - destruct (find_existing_workflows_spec (parse "/tmp/ws/py_pkg")
      [ ("file.py", File);
        (".github",
          Dir [ ("workflows",
                  Dir [ ("exists1.yml", File);
                        ("exists2.yml", File);
                        ("some_problem_matcher.json", File);
                        ("old.yml", Dir [("nested.yml", File)]) ]) ]) ])
      as [_ Hpresent].
    destruct (Hpresent
                [ ("workflows",
                    Dir [ ("exists1.yml", File);
                          ("exists2.yml", File);
                          ("some_problem_matcher.json", File);
                          ("old.yml", Dir [("nested.yml", File)]) ]) ]
                [ ("exists1.yml", File);
                  ("exists2.yml", File);
                  ("some_problem_matcher.json", File);
                  ("old.yml", Dir [("nested.yml", File)]) ])
      as [-> _]; reflexivity.
  - apply find_existing_workflows_spec.
    intros (gh & es & Hgh & Hes). vm_compute in Hgh.
    injection Hgh as <-. vm_compute in Hes. discriminate.
Defined.

Lemma scan_dir_child ignore acc base n nd :
  scan_dir ignore acc (child base n, nd) =
    match nd with
    | Dir es =>
        if decide (n ∈ ignore) then Ok acc
        else
          langs ← determine_language (child base n) es;
          Ok (acc ++ [Repository.mk (child base n) langs
                        (find_existing_workflows (child base n) es)])
    | _ => Ok acc
    end.
Proof. unfold scan_dir. cbn [fst snd]. by rewrite name_child. Qed.

Lemma scan_dirs_spec base ignore (entries : entries_t) :
  ∀ acc,
    ∃ repos,
      for_each (scan_dir ignore) acc (iterdir base entries)
      = Ok (acc ++ repos)
      ∧ Forall2
          (λ r e, ∃ es,
             e.2 = Dir es
             ∧ Repository.path r = child base e.1
             ∧ determine_language (child base e.1) es
               = Ok (Repository.languages r)
             ∧ Repository.workflows r
               = find_existing_workflows (child base e.1) es)
          repos
          (filter (λ e, is_dir e.2 ∧ e.1 ∉ ignore) entries).
Proof.
  unfold iterdir. induction entries as [|[n nd] entries IH]; intros acc.
  - exists []. rewrite app_nil_r. split; [done|]. constructor.
  - rewrite fmap_cons, filter_cons. cbn [for_each fst snd].
    rewrite scan_dir_child.
    destruct nd as [|es|]; cbn [mbind result_bind].
    + rewrite decide_False by (by intros [? _]). apply IH.
    + destruct (decide (n ∈ ignore)) as [Hin|Hnin]; cbn [mbind result_bind].
      * rewrite decide_False by (by intros [_ ?]). apply IH.
      * rewrite decide_True by done.
        destruct (determine_language_in_spec LANGUAGES (child base n) es
                    LANGUAGES_wf) as (langs & Hrun & _).
        fold (determine_language (child base n) es) in Hrun.
        rewrite Hrun. cbn [mbind result_bind].
        destruct (IH (acc ++ [Repository.mk (child base n) langs
                                (find_existing_workflows (child base n) es)]))
          as (repos & -> & Hall).
        exists (Repository.mk (child base n) langs
                  (find_existing_workflows (child base n) es) :: repos).
        split; [by rewrite <- app_assoc|].
        constructor; [|done]. by exists es.
    + rewrite decide_False by (by intros [? _]). apply IH.
Qed.

(** C8: [find_repositories] returns, in enumeration order, one record per
    entry directly under the base that is a directory and whose name is
    not on the ignore list, and nothing else: the record's path is the
    entry's path, its languages and workflows are what
    [determine_language] and [find_existing_workflows] return for it; no
    record's directory name is on the ignore list, and every record comes
    from a directory entry of the base. *)
Theorem find_repositories_spec
    (base_dir : Path) (entries : entries_t) (ignore : list string) :
  ∃ repos,
    find_repositories base_dir entries ignore = Ok repos
    ∧ Forall2
        (λ r e, ∃ es,
           e.2 = Dir es
           ∧ Repository.path r = child base_dir e.1
           ∧ determine_language (child base_dir e.1) es
             = Ok (Repository.languages r)
           ∧ Repository.workflows r
             = find_existing_workflows (child base_dir e.1) es)
        repos
        (filter (λ e, is_dir e.2 ∧ e.1 ∉ ignore) entries)
    ∧ length repos
      = length (filter (λ e, is_dir e.2 ∧ e.1 ∉ ignore) entries)
    ∧ Forall (λ r, name (Repository.path r) ∉ ignore) repos
    ∧ Forall (λ r, ∃ n es, (n, Dir es) ∈ entries
                           ∧ Repository.path r = child base_dir n) repos.
Proof.
  destruct (scan_dirs_spec base_dir ignore entries []) as (repos & Hrun & Hall).
  exists repos. split_and!; [done | done | by eapply Forall2_length | |].
  - apply Forall_forall. intros r Hr.
    destruct (proj1 (list_elem_of_lookup _ _) Hr) as [i Hi].
    destruct (Forall2_lookup_l _ _ _ _ _ Hall Hi)
      as ([n nd] & He & es & _ & -> & _).
    rewrite name_child.
    apply list_elem_of_lookup_2, list_elem_of_filter in He as [[_ ?] _].
    done.
  - apply Forall_forall. intros r Hr.
    destruct (proj1 (list_elem_of_lookup _ _) Hr) as [i Hi].
    destruct (Forall2_lookup_l _ _ _ _ _ Hall Hi)
      as ([n nd] & He & es & Hnd & Hp & _).
    simpl in *. subst nd.
    apply list_elem_of_lookup_2, list_elem_of_filter in He as [_ Hin].
    by exists n, es.
Qed.

Example find_repositories_examples :
  find_repositories Scenario.base_dir Scenario.workspace []
  = Ok [ Scenario.empty_pkg; Scenario.py_pkg; Scenario.cpp_pkg;
         Repository.mk (parse "/tmp/ws/py_cpp_pkg") ["python"; "c++"] [] ]
  ∧ find_repositories Scenario.base_dir Scenario.workspace
      ["py_cpp_pkg"; "py_pkg"; "notes.md"]
    = Ok [ Scenario.empty_pkg; Scenario.cpp_pkg ].
Proof. split; vm_compute; reflexivity. Qed.

(** * Further properties of the code *)

(** ** The matcher on its own *)

Lemma spec_operations_app (idx : index) r1 r2 :
  spec_operations (r1 ++ r2) idx
  = spec_operations r1 idx ++ spec_operations r2 idx.
Proof. unfold spec_operations. apply bind_app. Qed.

(** X1: the operations for a list of repositories are the operations for
    its parts, one after the other: nothing is emitted for an empty list
    or from an empty index, the output for [r1 ++ r2] is the output for
    [r1] followed by that for [r2], and reordering the repositories only
    reorders the output. *)
Theorem determine_operations_concat
    (r1 r2 : list Repository.t) (idx : index) :
  determine_operations [] idx = []
  ∧ determine_operations r1 [] = []
  ∧ determine_operations (r1 ++ r2) idx
    = determine_operations r1 idx ++ determine_operations r2 idx
  ∧ (r1 ≡ₚ r2 → determine_operations r1 idx ≡ₚ determine_operations r2 idx).
Proof.
  rewrite !determine_operations_spec. split_and!.
  - done.
  - unfold spec_operations. induction r1 as [|r r1 IH]; [done|].
    by rewrite bind_cons, IH.
  - apply spec_operations_app.
  - intros Hperm. unfold spec_operations. by rewrite Hperm.
Qed.

Lemma determine_operations_concat_witness :
  determine_operations [Scenario.py_pkg; Scenario.empty_pkg] Scenario.idx
  ≡ₚ determine_operations [Scenario.empty_pkg; Scenario.py_pkg] Scenario.idx.
Proof.
  apply (determine_operations_concat
           [Scenario.py_pkg; Scenario.empty_pkg]
           [Scenario.empty_pkg; Scenario.py_pkg] Scenario.idx).
  apply perm_swap.
Defined.

Lemma joinpath_absolute p s :
  root (parse s) ≠ EmptyString → p </> s = parse s.
Proof.
  intros H. unfold joinpath.
  destruct (String.eqb_spec (root (parse s)) EmptyString); done.
Qed.

(** X2: a workflow file given by an absolute path is not placed in the
    repository: for every repository the operation built for it has that
    absolute path as its source and as its destination, and this is the
    operation the matcher emits. *)
Theorem determine_operations_absolute_file
    (repositories : list Repository.t) (idx : index)
    (repo : Repository.t) (lang : string) (wf : Workflow.t)
    (wf_file : string) :
  root (parse wf_file) ≠ EmptyString →
  op repo wf wf_file = (parse wf_file, parse wf_file)
  ∧ (repo ∈ repositories → relevant repo lang → wf ∈ bucket idx lang →
     wf_file ∈ Workflow.files wf →
     (parse wf_file, parse wf_file) ∈ determine_operations repositories idx).
Proof.
  intros Habs.
  assert (op repo wf wf_file = (parse wf_file, parse wf_file)) as Hop.
  { unfold op. by rewrite !joinpath_absolute. }
  split; [done|]. intros Hrepo Hrel Hwf Hf. rewrite <- Hop.
  by eapply elem_of_spec_operations_intro.
Qed.

Lemma determine_operations_absolute_file_witness :
  (parse "/ws/app/.github/workflows/ci.yml",
   parse "/ws/app/.github/workflows/ci.yml")
    ∈ determine_operations [Scenario.py_pkg; Order.app] Order.idx.
Proof.
  apply (determine_operations_absolute_file [Scenario.py_pkg; Order.app]
           Order.idx Scenario.py_pkg "*" Order.pinned
           "/ws/app/.github/workflows/ci.yml");
    [discriminate | by_compute..].
Defined.

(** ** The loader as a whole *)

Lemma first_failure {A} (P : A → Prop) `{!∀ x, Decision (P x)} (l : list A) :
  Forall P l ∨ ∃ pre x post, l = pre ++ x :: post ∧ Forall P pre ∧ ¬ P x.
Proof.
  induction l as [|x l IH]; [by left|].
  destruct (decide (P x)) as [Hx|Hx].
  - destruct IH as [IH|(pre & y & post & -> & Hpre & Hy)].
    + left. by constructor.
    + right. exists (x :: pre), y, post. split_and!; [done| |done].
      by constructor.
  - right. by exists [], x, l.
Qed.

Section loader_whole.
Variable is_file : Path → bool.
Variable parent_dir : Path.
Implicit Types (st : loader_state) (entry : string * info_t).

Lemma validate_files_Ok files u :
  validate_files is_file parent_dir files = Ok u →
  Forall (λ f, is_file (parent_dir </> f) = true) files.
Proof.
  induction files as [|f files IH]; simpl; [by constructor|].
  destruct (is_file (parent_dir </> f)) eqn:Hf; simpl; [|done].
  intros H. constructor; auto.
Qed.

Lemma validate_files_all files :
  Forall (λ f, is_file (parent_dir </> f) = true) files →
  validate_files is_file parent_dir files = Ok tt.
Proof.
  induction 1 as [|f files Hf _ IH]; simpl; [done|]. by rewrite Hf.
Qed.

Lemma accepted_inv entry wf :
  accepted is_file parent_dir entry = Some wf →
  wf = Workflow.mk entry.1 parent_dir (Workflow.files wf)
         (entry_languages entry.2)
  ∧ entry_files entry.2 = Some (Workflow.files wf)
  ∧ Forall (λ f, is_file (parent_dir </> f) = true) (Workflow.files wf).
Proof.
  unfold accepted. destruct (entry_files entry.2) as [files|]; simpl; [|done].
  unfold validate. simpl.
  destruct (validate_files is_file parent_dir files) as [u|e] eqn:Hv; [|done].
  intros [= <-]. simpl. split_and!; [done..|]. by eapply validate_files_Ok.
Qed.

Lemma load_entry_has_key st entry :
  has_file_key entry →
  load_entry is_file parent_dir st entry
  = Ok (option_list (rejection is_file parent_dir entry),
        mkLoader
          (workflows st ++ option_list (accepted is_file parent_dir entry))
          (foldl add_workflow (workflows_per_language st)
             (option_list (accepted is_file parent_dir entry)))).
Proof.
  destruct entry as [name info]. unfold has_file_key. cbn [fst snd].
  intros [fv Hfv]. rewrite load_entry_eq.
  unfold rejection, accepted, entry_files, validate. simpl.
  rewrite Hfv. simpl.
  destruct (validate_files is_file parent_dir (py_iter (as_list fv)))
    as [[]|e]; simpl; [done|].
  destruct st. simpl. by rewrite app_nil_r.
Qed.

Lemma load_entry_no_key st entry :
  ¬ has_file_key entry →
  load_entry is_file parent_dir st entry = Raise (KeyError "file").
Proof.
  destruct entry as [name info]. unfold has_file_key. cbn [fst snd].
  intros Hno. rewrite load_entry_eq. unfold entry_files.
  destruct (info !! _MANIFEST_KEY_FILE) eqn:Hfv; [|done].
  exfalso. apply Hno. by eexists.
Qed.

Lemma load_loop_has_keys st (items : manifest_t) :
  Forall has_file_key items →
  load_loop is_file parent_dir st items
  = (omap (rejection is_file parent_dir) items,
     Ok (mkLoader
           (workflows st ++ omap (accepted is_file parent_dir) items)
           (foldl add_workflow (workflows_per_language st)
              (omap (accepted is_file parent_dir) items)))).
Proof.
  intros Hall. revert st.
  induction Hall as [|entry items Hentry _ IH]; intros st.
  - simpl. destruct st. simpl. by rewrite app_nil_r.
  - cbn [load_loop]. rewrite load_entry_has_key by done. rewrite IH.
    cbn [workflows workflows_per_language omap list_omap].
    destruct (rejection is_file parent_dir entry);
      destruct (accepted is_file parent_dir entry);
      simpl; by rewrite <- ?app_assoc, ?app_nil_r.
Qed.

Lemma load_loop_missing_key st (pre post : manifest_t) entry :
  Forall has_file_key pre → ¬ has_file_key entry →
  load_loop is_file parent_dir st (pre ++ entry :: post)
  = (omap (rejection is_file parent_dir) pre, Raise (KeyError "file")).
Proof.
  intros Hpre Hentry. rewrite load_loop_app, load_loop_has_keys by done.
  cbn [load_loop]. rewrite load_entry_no_key by done.
  by rewrite app_nil_r.
Qed.
End loader_whole.

Lemma load_workflows_has_keys is_file manifest_file (manifest : manifest_t) :
  Forall has_file_key manifest →
  load_workflows is_file manifest_file manifest
  = (omap (rejection is_file (parent manifest_file)) manifest,
     Ok (omap (accepted is_file (parent manifest_file)) manifest,
         foldl add_workflow []
           (omap (accepted is_file (parent manifest_file)) manifest))).
Proof.
  intros Hall. rewrite load_workflows_loop, load_loop_has_keys by done. done.
Qed.

Lemma load_workflows_missing_key is_file manifest_file
    (pre post : manifest_t) entry :
  Forall has_file_key pre → ¬ has_file_key entry →
  load_workflows is_file manifest_file (pre ++ entry :: post)
  = (omap (rejection is_file (parent manifest_file)) pre,
     Raise (KeyError "file")).
Proof.
  intros Hpre Hentry.
  by rewrite load_workflows_loop, load_loop_missing_key.
Qed.

Lemma load_workflows_Ok_has_keys is_file manifest_file manifest err r :
  load_workflows is_file manifest_file manifest = (err, Ok r) →
  Forall has_file_key manifest.
Proof.
  intros Hload.
  destruct (first_failure has_file_key manifest)
    as [?|(pre & x & post & -> & Hpre & Hx)]; [done|].
  by rewrite load_workflows_missing_key in Hload.
Qed.



(** ** Two workflows that write the same file *)







(** The output for the manifest of [Shared]: the workflow [base] is
    declared before [ci] and both write [ci.yml] into the repository. *)
Example Shared_determine_operations :
  load_workflows Shared.is_file Shared.manifest_file Shared.manifest
  = ([], Ok ([Shared.lint; Shared.base; Shared.ci], Shared.idx))
  ∧ determine_operations [Shared.app] Shared.idx
    = [ (parse "/repo/ci/lint.yml",
         parse "/ws/app/.github/workflows/lint.yml");
        (parse "/repo/ci/ci.yml", parse "/ws/app/.github/workflows/ci.yml");
        (parse "/repo/ci/ci.yml", parse "/ws/app/.github/workflows/ci.yml") ].
Proof. split; vm_compute; reflexivity. Qed.

(** X3: the loader in closed form, for the manifest as [tomli.load]
    returns it from a file in the documented format (every entry a table
    whose [file] and [language] are a string or a list of strings).  When
    every entry has the [file] key the call returns: it has printed the
    diagnostics of the rejected entries in manifest order and returns the
    workflows of the other entries with the index built from them.  When
    some entry lacks the key, the call ends with [KeyError('file')] at the
    first such entry, having printed the diagnostics of the rejected
    entries before it and nothing for the entries after it. *)
Theorem load_workflows_closed_form
    (is_file : Path → bool) (manifest_file : Path) (manifest : manifest_t) :
  (Forall has_file_key manifest →
   load_workflows is_file manifest_file manifest
   = (omap (rejection is_file (parent manifest_file)) manifest,
      Ok (omap (accepted is_file (parent manifest_file)) manifest,
          foldl add_workflow []
            (omap (accepted is_file (parent manifest_file)) manifest))))
  ∧ (¬ Forall has_file_key manifest →
     ∃ pre entry post,
       manifest = pre ++ entry :: post
       ∧ Forall has_file_key pre
       ∧ entry.2 !! _MANIFEST_KEY_FILE = None
       ∧ load_workflows is_file manifest_file manifest
         = (omap (rejection is_file (parent manifest_file)) pre,
            Raise (KeyError "file"))).
Proof.
  split.
  - apply load_workflows_has_keys.
  - intros Hno.
    destruct (first_failure has_file_key manifest)
      as [?|(pre & x & post & -> & Hpre & Hx)]; [done|].
    exists pre, x, post. split_and!; [done..| |].
    + apply eq_None_not_Some. exact Hx.
    + by apply load_workflows_missing_key.
Qed.

Lemma load_workflows_closed_form_witness :
  load_workflows Scenario.is_file Scenario.manifest_file Scenario.manifest
  = ([diagnostic "doesnotexist" (FileNotFoundError "missing.yml")],
     Ok ([Scenario.python_flake8; Scenario.git_fixup], Scenario.idx))
  ∧ ∃ pre entry post,
      Scenario.manifest_no_file = pre ++ entry :: post
      ∧ Forall has_file_key pre
      ∧ entry.2 !! _MANIFEST_KEY_FILE = None
      ∧ load_workflows Scenario.is_file Scenario.manifest_file
          Scenario.manifest_no_file
        = (omap (rejection Scenario.is_file (parent Scenario.manifest_file))
             pre,
           Raise (KeyError "file")).
Proof.
  destruct (load_workflows_closed_form Scenario.is_file
              Scenario.manifest_file Scenario.manifest) as [Hok _].
  destruct (load_workflows_closed_form Scenario.is_file
              Scenario.manifest_file Scenario.manifest_no_file)
    as [_ Hraise].
  split.
  - etransitivity; [apply Hok|vm_compute; reflexivity].
    unfold has_file_key. by_compute.
  - apply Hraise. unfold has_file_key. by_compute.
Defined.

Lemma accepted_or_rejected is_file parent_dir (entry : string * info_t) :
  has_file_key entry →
  length (option_list (accepted is_file parent_dir entry))
  + length (option_list (rejection is_file parent_dir entry)) = 1.
Proof.
  destruct entry as [name info]. unfold has_file_key. cbn [fst snd].
  intros [fv Hfv]. unfold accepted, rejection, entry_files, validate.
  simpl. rewrite Hfv. simpl.
  by destruct (validate_files is_file parent_dir (py_iter (as_list fv)))
    as [[]|e].
Qed.

Lemma rejection_inv is_file parent_dir (entry : string * info_t) line :
  rejection is_file parent_dir entry = Some line →
  ∃ files f,
    entry_files entry.2 = Some files
    ∧ f ∈ files
    ∧ is_file (parent_dir </> f) = false
    ∧ line = diagnostic entry.1 (FileNotFoundError f).
Proof.
  unfold rejection. destruct (entry_files entry.2) as [files|]; [|done].
  simpl.
  destruct (validate_files is_file parent_dir files) as [|e] eqn:Hv; [done|].
  intros [= <-].
  destruct (validate_files_Raise _ _ _ _ Hv) as (f & -> & Hf & Hmiss).
  by exists files, f.
Qed.

(** X4: when [load_workflows] returns, every entry of the manifest has
    either been loaded or been reported: the lines on the error stream
    are the diagnostics of the rejected entries in manifest order, each
    naming an entry of the manifest and one of its declared files that is
    not a regular file, and the number of workflows plus the number of
    lines is the number of entries. *)
Theorem load_workflows_accounts_for_entries
    (is_file : Path → bool) (manifest_file : Path) (manifest : manifest_t)
    (err : list string) (wfs : list Workflow.t) (idx : index) :
  load_workflows is_file manifest_file manifest = (err, Ok (wfs, idx)) →
  err = omap (rejection is_file (parent manifest_file)) manifest
  ∧ length wfs + length err = length manifest
  ∧ Forall (λ line, ∃ name info files f,
              (name, info) ∈ manifest
              ∧ entry_files info = Some files
              ∧ f ∈ files
              ∧ is_file (parent manifest_file </> f) = false
              ∧ line = diagnostic name (FileNotFoundError f)) err.
Proof.
  intros Hload.
  pose proof (load_workflows_Ok_has_keys _ _ _ _ _ Hload) as Hkeys.
  rewrite load_workflows_has_keys in Hload by done.
  injection Hload as <- <- <-. split_and!; [done| |].
  - induction Hkeys as [|entry items Hentry _ IH]; [done|].
    pose proof (accepted_or_rejected is_file (parent manifest_file) entry
                  Hentry) as Hone.
    cbn [omap list_omap length].
    destruct (accepted is_file (parent manifest_file) entry);
      destruct (rejection is_file (parent manifest_file) entry);
      simpl in *; lia.
  - apply Forall_forall. intros line Hline.
    apply list_elem_of_omap in Hline as ([name info] & Hin & Hrej).
    apply rejection_inv in Hrej as (files & f & ? & ? & ? & ?).
    by exists name, info, files, f.
Qed.

Lemma load_workflows_accounts_for_entries_witness :
  [diagnostic "doesnotexist" (FileNotFoundError "missing.yml")]
  = omap (rejection Scenario.is_file (parent Scenario.manifest_file))
      Scenario.manifest
  ∧ 2 + 1 = length Scenario.manifest.
Proof.
  destruct (load_workflows_accounts_for_entries Scenario.is_file
              Scenario.manifest_file Scenario.manifest
              [diagnostic "doesnotexist" (FileNotFoundError "missing.yml")]
              [Scenario.python_flake8; Scenario.git_fixup] Scenario.idx)
    as (Herr & Hlen & _); [vm_compute; reflexivity|].
  split; [exact Herr | exact Hlen].
Defined.

Lemma loaded_workflow_files_exist
    (is_file : Path → bool) manifest_file (manifest : manifest_t)
    err wfs (idx : index) wf :
  load_workflows is_file manifest_file manifest = (err, Ok (wfs, idx)) →
  wf ∈ wfs →
  Workflow.parent_dir wf = parent manifest_file
  ∧ Forall (λ f, is_file (parent manifest_file </> f) = true)
      (Workflow.files wf).
Proof.
  intros [-> _]%load_workflows_Ok
    ([name info] & Hin & Hacc)%list_elem_of_omap.
  apply accepted_inv in Hacc as (Heq & _ & Hexist).
  split; [by rewrite Heq | done].
Qed.

(** X5: every workflow [load_workflows] returns was validated: its
    directory is the manifest's parent directory, each of its files is a
    regular file there, and its name, files and languages are those of an
    entry of the manifest; when the manifest's keys are distinct, so are
    the names of the returned workflows. *)
Theorem load_workflows_valid
    (is_file : Path → bool) (manifest_file : Path) (manifest : manifest_t)
    (err : list string) (wfs : list Workflow.t) (idx : index) :
  load_workflows is_file manifest_file manifest = (err, Ok (wfs, idx)) →
  Forall (λ wf,
            Workflow.parent_dir wf = parent manifest_file
            ∧ validate is_file wf = Ok tt
            ∧ Forall (λ f, is_file (parent manifest_file </> f) = true)
                (Workflow.files wf)
            ∧ ∃ info,
                (Workflow.name wf, info) ∈ manifest
                ∧ entry_files info = Some (Workflow.files wf)
                ∧ Workflow.languages wf = entry_languages info) wfs
  ∧ (NoDup manifest.*1 → NoDup (Workflow.name <$> wfs)).
Proof.
  intros Hload. pose proof (load_workflows_Ok _ _ _ _ _ _ Hload) as [Hwfs _].
  split.
  - rewrite Hwfs. apply Forall_forall. intros wf Hwf.
    apply list_elem_of_omap in Hwf as ([name info] & Hin & Hacc).
    apply accepted_inv in Hacc as (Heq & Hfiles & Hexist). simpl in *.
    rewrite Heq. simpl. split_and!; [done| |by rewrite Heq in Hexist|].
    + unfold validate. simpl. apply validate_files_all.
      by rewrite Heq in Hexist.
    + exists info. by rewrite Heq in Hfiles.
  - intros Hnd. eapply sublist_NoDup; [exact Hnd|].
    rewrite Hwfs. apply accepted_names_sublist.
Qed.

Lemma load_workflows_valid_witness :
  Forall (λ wf, Scenario.is_file (Workflow.parent_dir wf </> "git.yml") = true)
    [Scenario.git_fixup]
  ∧ NoDup ["python_flake8"; "git_fixup"].
Proof.
  destruct (load_workflows_valid Scenario.is_file Scenario.manifest_file
              Scenario.manifest
              [diagnostic "doesnotexist" (FileNotFoundError "missing.yml")]
              [Scenario.python_flake8; Scenario.git_fixup] Scenario.idx)
    as [Hvalid Hnames]; [vm_compute; reflexivity|].
  split.
  - apply Forall_cons in Hvalid as [_ [(Hp & _ & Hf & _) _]%Forall_cons].
    constructor; [|constructor]. rewrite Hp.
    by apply Forall_cons in Hf as [? _].
  - apply Hnames. by_compute.
Defined.

(** X6: the loader and the matcher together never plan a copy from a file
    that is not there: every operation computed from a loaded index has
    as its source [parent / file] for a file of a returned workflow, and
    that source is a regular file. *)
Theorem operations_sources_exist
    (is_file : Path → bool) (manifest_file : Path) (manifest : manifest_t)
    (err : list string) (wfs : list Workflow.t) (idx : index)
    (repositories : list Repository.t) (o : operation) :
  load_workflows is_file manifest_file manifest = (err, Ok (wfs, idx)) →
  o ∈ determine_operations repositories idx →
  is_file o.1 = true
  ∧ ∃ wf wf_file,
      wf ∈ wfs ∧ wf_file ∈ Workflow.files wf
      ∧ o.1 = parent manifest_file </> wf_file.
Proof.
  intros Hload. rewrite determine_operations_spec. unfold spec_operations.
  intros (repo & (lang & wf & f & _ & _ & Hwf & Hf & ->)
                   %elem_of_spec_repo_operations & _)%list_elem_of_bind.
  apply (load_workflows_elem_of_bucket _ _ _ _ _ _ _ _ Hload) in Hwf.
  destruct (loaded_workflow_files_exist _ _ _ _ _ _ _ Hload Hwf)
    as [Hp Hexist].
  rewrite Forall_forall in Hexist. simpl. rewrite Hp. split; [by apply Hexist|].
  by exists wf, f.
Qed.

Lemma operations_sources_exist_witness :
  Scenario.is_file (parse "/repo/workflows/flake8.yml") = true.
Proof.
  apply (operations_sources_exist Scenario.is_file Scenario.manifest_file
           Scenario.manifest
           [diagnostic "doesnotexist" (FileNotFoundError "missing.yml")]
           [Scenario.python_flake8; Scenario.git_fixup] Scenario.idx
           Scenario.repos
           (parse "/repo/workflows/flake8.yml",
            parse "/tmp/ws/py_pkg/.github/workflows/flake8.yml"));
    [vm_compute; reflexivity | by_compute].
Defined.

(** ** The keys of the index *)

Lemma keys_index_append (idx : index) lang wf :
  keys (index_append idx lang wf) = note_tag (keys idx) lang.
Proof.
  unfold index_append, dd_getitem, note_tag.
  destruct (od_lookup idx lang) as [b|] eqn:Hb.
  - rewrite keys_setitem.
    assert (lang ∈ keys idx) by (apply od_lookup_is_Some; eauto).
    by rewrite !decide_True.
  - apply od_lookup_None in Hb. rewrite !keys_setitem.
    rewrite (decide_False (P := lang ∈ keys idx)) by done.
    rewrite decide_True; [done|]. apply elem_of_app. right.
    by apply list_elem_of_singleton.
Qed.

Lemma keys_add_workflow (idx : index) wf :
  keys (add_workflow idx wf) = foldl note_tag (keys idx) (Workflow.languages wf).
Proof.
  unfold add_workflow. revert idx.
  induction (Workflow.languages wf) as [|l ls IH]; intros idx; [done|].
  simpl. by rewrite IH, keys_index_append.
Qed.

Lemma keys_foldl_add_workflow (idx : index) wfs :
  keys (foldl add_workflow idx wfs)
  = foldl note_tag (keys idx) (wfs ≫= Workflow.languages).
Proof.
  revert idx. induction wfs as [|wf wfs IH]; intros idx; [done|].
  rewrite bind_cons, foldl_app. simpl. by rewrite IH, keys_add_workflow.
Qed.

Lemma elem_of_foldl_note_tag acc langs x :
  x ∈ foldl note_tag acc langs ↔ x ∈ acc ∨ x ∈ langs.
Proof.
  revert acc. induction langs as [|l langs IH]; intros acc; simpl.
  - rewrite elem_of_nil. tauto.
  - rewrite IH, elem_of_cons. unfold note_tag.
    destruct (decide (l ∈ acc)) as [Hin|Hnin].
    + split; [tauto|]. intros [?|[->|?]]; tauto.
    + rewrite elem_of_app, list_elem_of_singleton. tauto.
Qed.

Lemma elem_of_copies_inv lang wf wf' :
  wf' ∈ copies lang wf → wf' = wf ∧ lang ∈ Workflow.languages wf.
Proof.
  unfold copies.
  intros (l & -> & [-> Hl]%list_elem_of_filter)%list_elem_of_fmap. done.
Qed.

(** X7: in the index [load_workflows] returns, the keys are the tags of
    the returned workflows in the order in which each tag is first
    written in the manifest, read workflow by workflow; a tag is a key
    exactly when some returned workflow has it, no key has an empty
    bucket, and a bucket holds only returned workflows that have its
    tag. *)
Theorem load_workflows_index_keys
    (is_file : Path → bool) (manifest_file : Path) (manifest : manifest_t)
    (err : list string) (wfs : list Workflow.t) (idx : index) :
  load_workflows is_file manifest_file manifest = (err, Ok (wfs, idx)) →
  keys idx = first_seen (wfs ≫= Workflow.languages)
  ∧ (∀ lang, lang ∈ keys idx ↔
             ∃ wf, wf ∈ wfs ∧ lang ∈ Workflow.languages wf)
  ∧ (∀ lang, lang ∈ keys idx → bucket idx lang ≠ [])
  ∧ (∀ lang wf, wf ∈ bucket idx lang →
                wf ∈ wfs ∧ lang ∈ Workflow.languages wf).
Proof.
  intros Hload.
  pose proof (load_workflows_Ok _ _ _ _ _ _ Hload) as [_ Hidx].
  assert (∀ lang, lang ∈ keys idx ↔
            ∃ wf, wf ∈ wfs ∧ lang ∈ Workflow.languages wf) as Hkeys.
  { intros lang. rewrite Hidx, keys_foldl_add_workflow.
    rewrite elem_of_foldl_note_tag, list_elem_of_bind.
    split; [intros [?%elem_of_nil|(wf & ? & ?)]; [done | by exists wf]|].
    intros (wf & ? & ?). right. by exists wf. }
  split_and!.
  - by rewrite Hidx, keys_foldl_add_workflow.
  - exact Hkeys.
  - intros lang (wf & Hwf & Hl)%Hkeys.
    rewrite (load_workflows_bucket _ _ _ _ _ _ lang Hload). intros Hnil.
    assert (wf ∈ wfs ≫= copies lang) as Hin.
    { apply list_elem_of_bind. exists wf. split; [|done].
      by apply elem_of_copies. }
    rewrite Hnil in Hin. by apply elem_of_nil in Hin.
  - intros lang wf.
    rewrite (load_workflows_bucket _ _ _ _ _ _ lang Hload).
    intros (wf' & [-> ?]%elem_of_copies_inv & ?)%list_elem_of_bind. done.
Qed.

Lemma load_workflows_index_keys_witness :
  keys Order.idx
  = first_seen ([Order.lint; Order.pinned; Order.ci] ≫= Workflow.languages)
  ∧ bucket Order.idx "python" ≠ [].
Proof.
  destruct (load_workflows_index_keys Order.is_file Order.manifest_file
              Order.manifest [] [Order.lint; Order.pinned; Order.ci]
              Order.idx) as (Hkeys & _ & Hfull & _);
    [vm_compute; reflexivity|].
  split; [exact Hkeys|]. apply Hfull. by_compute.
Defined.

(** ** Normal form of the manifest *)

Lemma as_list_idemp v : as_list (as_list v) = as_list v.
Proof. by destruct v. Qed.

Lemma entry_files_normalise (info : info_t) :
  entry_files (normalise info) = entry_files info.
Proof.
  unfold normalise, entry_files, _MANIFEST_KEY_FILE, _MANIFEST_KEY_LANGUAGE.
  rewrite lookup_insert_ne by done.
  destruct (info !! "file") as [v|] eqn:Hv; simpl.
  - rewrite lookup_insert_eq. simpl. by rewrite as_list_idemp.
  - rewrite lookup_insert_ne by done. by rewrite Hv.
Qed.

Lemma entry_languages_normalise (info : info_t) :
  entry_languages (normalise info) = entry_languages info.
Proof.
  unfold normalise, entry_languages at 1,
    _MANIFEST_KEY_FILE, _MANIFEST_KEY_LANGUAGE.
  rewrite lookup_insert_ne by done.
  destruct (info !! "file") as [v|] eqn:Hv.
  - rewrite lookup_insert_ne by done. by rewrite lookup_insert_eq.
  - by rewrite lookup_insert_eq.
Qed.

Lemma load_entry_ext is_file parent_dir st name (i1 i2 : info_t) :
  entry_files i1 = entry_files i2 →
  entry_languages i1 = entry_languages i2 →
  load_entry is_file parent_dir st (name, i1)
  = load_entry is_file parent_dir st (name, i2).
Proof. intros Hf Hl. by rewrite !load_entry_eq, Hf, Hl. Qed.

Lemma load_loop_normalise is_file parent_dir st (items : manifest_t) :
  load_loop is_file parent_dir st (prod_map id normalise <$> items)
  = load_loop is_file parent_dir st items.
Proof.
  revert st. induction items as [|[name info] items IH]; intros st; [done|].
  rewrite fmap_cons. cbn [load_loop prod_map fst snd id].
  rewrite (load_entry_ext _ _ _ _ (normalise info) info)
    by auto using entry_files_normalise, entry_languages_normalise.
  destruct (load_entry is_file parent_dir st (name, info)) as [[out st']|e];
    [|done].
  by rewrite IH.
Qed.

(** X8: the loader reads a manifest through its normal form: writing a
    string as a one-element list, a missing [language] as the list
    [["*"]], and leaving lists as they are changes neither what is
    printed nor what is returned or raised; in the normal form the
    language is always a list and a present file key always holds a
    list. *)
Theorem load_workflows_normalise
    (is_file : Path → bool) (manifest_file : Path) (manifest : manifest_t) :
  load_workflows is_file manifest_file (prod_map id normalise <$> manifest)
  = load_workflows is_file manifest_file manifest
  ∧ Forall (λ entry,
              normalise entry.2 !! _MANIFEST_KEY_LANGUAGE
              = Some (Array (entry_languages entry.2))
              ∧ normalise entry.2 !! _MANIFEST_KEY_FILE
                = as_list <$> entry.2 !! _MANIFEST_KEY_FILE) manifest.
Proof.
  split.
  - by rewrite !load_workflows_loop, load_loop_normalise.
  - apply Forall_forall. intros [name info] _. cbn [snd].
    unfold normalise, _MANIFEST_KEY_FILE, _MANIFEST_KEY_LANGUAGE.
    rewrite lookup_insert_ne by done.
    destruct (info !! "file") as [v|] eqn:Hv; simpl.
    + rewrite lookup_insert_ne by done. by rewrite !lookup_insert_eq.
    + rewrite lookup_insert_eq. rewrite lookup_insert_ne by done.
      by rewrite Hv.
Qed.

(** ** Loading a manifest in two parts *)

Lemma load_workflows_Raise_split is_file manifest_file manifest err x :
  load_workflows is_file manifest_file manifest = (err, Raise x) →
  ∃ pre entry post,
    manifest = pre ++ entry :: post
    ∧ Forall has_file_key pre ∧ ¬ has_file_key entry
    ∧ err = omap (rejection is_file (parent manifest_file)) pre
    ∧ x = KeyError "file".
Proof.
  intros Hload.
  destruct (first_failure has_file_key manifest)
    as [Hall|(pre & entry & post & -> & Hpre & Hentry)].
  - by rewrite load_workflows_has_keys in Hload.
  - rewrite load_workflows_missing_key in Hload by done.
    injection Hload as <- <-. by exists pre, entry, post.
Qed.

(** X9: loading the concatenation of two manifests is loading one after
    the other.  When the first part loads, and the second loads too, the
    whole prints the lines of the first followed by those of the second
    and returns the workflows of the first followed by those of the
    second, every bucket being the first part's bucket followed by the
    second part's; when the second part raises, the whole raises the same
    exception after the same lines; when the first part raises, so does
    the whole, whatever follows. *)
Theorem load_workflows_app
    (is_file : Path → bool) (manifest_file : Path) (m1 m2 : manifest_t) :
  (∀ e1 w1 i1 e2 w2 i2,
     load_workflows is_file manifest_file m1 = (e1, Ok (w1, i1)) →
     load_workflows is_file manifest_file m2 = (e2, Ok (w2, i2)) →
     ∃ idx,
       load_workflows is_file manifest_file (m1 ++ m2)
       = (e1 ++ e2, Ok (w1 ++ w2, idx))
       ∧ ∀ lang, bucket idx lang = bucket i1 lang ++ bucket i2 lang)
  ∧ (∀ e1 r1 e2 x,
       load_workflows is_file manifest_file m1 = (e1, Ok r1) →
       load_workflows is_file manifest_file m2 = (e2, Raise x) →
       load_workflows is_file manifest_file (m1 ++ m2) = (e1 ++ e2, Raise x))
  ∧ (∀ e1 x,
       load_workflows is_file manifest_file m1 = (e1, Raise x) →
       load_workflows is_file manifest_file (m1 ++ m2) = (e1, Raise x)).
Proof.
  split_and!.
  - intros e1 w1 i1 e2 w2 i2 H1 H2.
    pose proof (load_workflows_Ok_has_keys _ _ _ _ _ H1) as K1.
    pose proof (load_workflows_Ok_has_keys _ _ _ _ _ H2) as K2.
    rewrite load_workflows_has_keys in H1, H2 by done.
    injection H1 as <- <- <-. injection H2 as <- <- <-.
    rewrite load_workflows_has_keys by by apply Forall_app.
    rewrite !omap_app, foldl_app. eexists. split; [done|].
    intros lang. by rewrite !bucket_foldl_add_workflow.
  - intros e1 r1 e2 x H1
      (pre & entry & post & -> & Hpre & Hentry & -> & ->)
      %load_workflows_Raise_split.
    pose proof (load_workflows_Ok_has_keys _ _ _ _ _ H1) as K1.
    rewrite load_workflows_has_keys in H1 by done. injection H1 as <- _.
    rewrite app_assoc, load_workflows_missing_key
      by (done || by apply Forall_app).
    by rewrite omap_app.
  - intros e1 x
      (pre & entry & post & -> & Hpre & Hentry & -> & ->)
      %load_workflows_Raise_split.
    rewrite <- app_assoc, <- app_comm_cons.
    by rewrite load_workflows_missing_key.
Qed.

Lemma load_workflows_app_witness :
  load_workflows Scenario.is_file Scenario.manifest_file
    (Scenario.manifest ++ Scenario.manifest_no_file)
  = ([diagnostic "doesnotexist" (FileNotFoundError "missing.yml")] ++ [],
     Raise (KeyError "file"))
  ∧ load_workflows Scenario.is_file Scenario.manifest_file
      (Scenario.manifest_no_file ++ Scenario.manifest)
    = ([], Raise (KeyError "file"))
  ∧ ∃ idx,
      load_workflows Scenario.is_file Scenario.manifest_file
        (Scenario.manifest ++ Scenario.manifest_multi)
      = ([diagnostic "doesnotexist" (FileNotFoundError "missing.yml")] ++ [],
         Ok ([Scenario.python_flake8; Scenario.git_fixup] ++ [Scenario.lint],
             idx)).
Proof.
  split_and!.
  - destruct (load_workflows_app Scenario.is_file Scenario.manifest_file
                Scenario.manifest Scenario.manifest_no_file)
      as (_ & Hsecond & _).
    apply (Hsecond _ ([Scenario.python_flake8; Scenario.git_fixup],
                      Scenario.idx));
      vm_compute; reflexivity.
  - destruct (load_workflows_app Scenario.is_file Scenario.manifest_file
                Scenario.manifest_no_file Scenario.manifest)
      as (_ & _ & Hfirst).
    apply Hfirst. vm_compute; reflexivity.
  - destruct (load_workflows_app Scenario.is_file Scenario.manifest_file
                Scenario.manifest Scenario.manifest_multi) as (Hok & _ & _).
    destruct (Hok [diagnostic "doesnotexist" (FileNotFoundError "missing.yml")]
                [Scenario.python_flake8; Scenario.git_fixup] Scenario.idx
                [] [Scenario.lint] Scenario.idx_multi)
      as (idx & Hload & _); [vm_compute; reflexivity..|].
    by exists idx.
Defined.

(** ** Validation *)

Lemma validate_files_first is_file parent_dir files e :
  validate_files is_file parent_dir files = Raise e →
  ∃ pre f post,
    files = pre ++ f :: post
    ∧ Forall (λ f, is_file (parent_dir </> f) = true) pre
    ∧ is_file (parent_dir </> f) = false
    ∧ e = FileNotFoundError f.
Proof.
  induction files as [|f files IH]; simpl; [done|].
  destruct (is_file (parent_dir </> f)) eqn:Hf; simpl.
  - intros (pre & f' & post & -> & Hpre & Hf' & ->)%IH.
    exists (f :: pre), f', post. split_and!; [done| |done..].
    by constructor.
  - intros [= <-]. by exists [], f, files.
Qed.

(** X10: [Workflow.validate] returns normally exactly when every file of
    the workflow is a regular file under its directory, and otherwise
    raises [FileNotFoundError] for the first file of the list that is
    not, the files before it all being there. *)
Theorem validate_first_missing (is_file : Path → bool) (wf : Workflow.t) :
  (validate is_file wf = Ok tt ↔
   Forall (λ f, is_file (Workflow.parent_dir wf </> f) = true)
     (Workflow.files wf))
  ∧ (∀ e, validate is_file wf = Raise e →
          ∃ pre f post,
            Workflow.files wf = pre ++ f :: post
            ∧ Forall (λ f, is_file (Workflow.parent_dir wf </> f) = true) pre
            ∧ is_file (Workflow.parent_dir wf </> f) = false
            ∧ e = FileNotFoundError f).
Proof.
  unfold validate. split.
  - split; [apply validate_files_Ok | apply validate_files_all].
  - apply validate_files_first.
Qed.

Lemma validate_first_missing_witness :
  validate Scenario.is_file Scenario.python_flake8 = Ok tt
  ∧ ∃ pre f post,
      ["flake8.yml"; "absent.yml"; "gone.yml"] = pre ++ f :: post
      ∧ Forall (λ f, Scenario.is_file (parse "/repo/workflows" </> f) = true)
          pre
      ∧ Scenario.is_file (parse "/repo/workflows" </> f) = false
      ∧ FileNotFoundError "absent.yml" = FileNotFoundError f.
Proof.
  split.
  - apply (validate_first_missing Scenario.is_file Scenario.python_flake8).
    by_compute.
  - apply (validate_first_missing Scenario.is_file
             (Workflow.mk "w" (parse "/repo/workflows")
                ["flake8.yml"; "absent.yml"; "gone.yml"] ["*"])).
    vm_compute. reflexivity.
Defined.

(** ** An entry with an empty language list *)

Lemma add_workflow_no_languages (idx : index) wf :
  Workflow.languages wf = [] → add_workflow idx wf = idx.
Proof. unfold add_workflow. by intros ->. Qed.

Lemma foldl_add_workflow_skip (idx : index) wfs :
  Forall (λ wf, Workflow.languages wf = []) wfs →
  foldl add_workflow idx wfs = idx.
Proof.
  induction 1 as [|wf wfs Hwf _ IH]; [done|].
  simpl. by rewrite add_workflow_no_languages.
Qed.

(** X11: an entry whose [language] is the empty list is loaded like any
    other: when its files all exist, its workflow, with no tag, stands in
    the returned workflow list at the entry's place and no diagnostic is
    printed for it.  But it enters no bucket: the index returned is the
    index of the manifest without the entry, so the entry never yields a
    copy operation. *)
Theorem load_workflows_empty_language
    (is_file : Path → bool) (manifest_file : Path)
    (pre post : manifest_t) (name : string) (info : info_t)
    (err : list string) (wfs : list Workflow.t) (idx : index) :
  info !! _MANIFEST_KEY_LANGUAGE = Some (Array []) →
  load_workflows is_file manifest_file (pre ++ (name, info) :: post)
  = (err, Ok (wfs, idx)) →
  (∃ err' wfs',
     load_workflows is_file manifest_file (pre ++ post)
     = (err', Ok (wfs', idx)))
  ∧ (∀ repositories,
       determine_operations repositories idx
       = determine_operations repositories
           (foldl add_workflow []
              (omap (accepted is_file (parent manifest_file))
                 (pre ++ post))))
  ∧ (∀ files,
       entry_files info = Some files →
       Forall (λ g, is_file (parent manifest_file </> g) = true) files →
       wfs = omap (accepted is_file (parent manifest_file)) pre
             ++ Workflow.mk name (parent manifest_file) files []
             :: omap (accepted is_file (parent manifest_file)) post
       ∧ err = omap (rejection is_file (parent manifest_file)) (pre ++ post)
       ∧ ∀ lang,
           Workflow.mk name (parent manifest_file) files []
             ∉ bucket idx lang)
  ∧ (∀ wf lang, wf ∈ wfs → Workflow.name wf = name →
                name ∉ (pre ++ post).*1 → wf ∉ bucket idx lang).
Proof.
  intros Hlang Hload.
  pose proof (load_workflows_Ok_has_keys _ _ _ _ _ Hload) as Hkeys.
  pose proof Hload as Hload'.
  rewrite load_workflows_has_keys in Hload' by done.
  injection Hload' as <- <- <-.
  assert (Forall has_file_key (pre ++ post)) as Hkeys'.
  { apply Forall_app in Hkeys as [? [_ ?]%Forall_cons]. by apply Forall_app. }
  assert (foldl add_workflow []
            (omap (accepted is_file (parent manifest_file))
               (pre ++ (name, info) :: post))
          = foldl add_workflow []
              (omap (accepted is_file (parent manifest_file)) (pre ++ post)))
    as Hidx.
  { rewrite !omap_app, !foldl_app. cbn [omap list_omap].
    destruct (accepted is_file (parent manifest_file) (name, info))
      as [wf|] eqn:Hacc; [|done].
    apply accepted_inv in Hacc as (Heq & _). simpl.
    rewrite add_workflow_no_languages; [done|].
    rewrite Heq. simpl. unfold entry_languages. by rewrite Hlang. }
  split_and!.
  - rewrite load_workflows_has_keys by done. rewrite Hidx. by eauto.
  - intros repositories. by rewrite Hidx.
  - intros files Hfiles Hexist.
    assert (entry_languages info = []) as Hnone.
    { unfold entry_languages. by rewrite Hlang. }
    assert (accepted is_file (parent manifest_file) (name, info)
            = Some (Workflow.mk name (parent manifest_file) files []))
      as Hacc.
    { unfold accepted. cbn [fst snd]. rewrite Hfiles, Hnone. simpl.
      unfold validate. cbn [Workflow.files Workflow.parent_dir].
      by rewrite validate_files_all. }
    assert (rejection is_file (parent manifest_file) (name, info) = None)
      as Hrej.
    { unfold rejection. cbn [fst snd]. rewrite Hfiles. simpl.
      by rewrite validate_files_all. }
    split_and!.
    + rewrite omap_app. cbn [omap list_omap]. by rewrite Hacc.
    + rewrite !omap_app. cbn [omap list_omap]. by rewrite Hrej.
    + intros lang Hin. rewrite bucket_foldl_add_workflow in Hin.
      simpl in Hin.
      apply list_elem_of_bind in Hin as (wf' & [<- Hl]%elem_of_copies_inv & _).
      by apply elem_of_nil in Hl.
  - intros wf lang Hwf Hname Hfresh Hin. rewrite Hidx in Hin.
    rewrite bucket_foldl_add_workflow in Hin. simpl in Hin.
    apply list_elem_of_bind in Hin as (wf' & [-> _]%elem_of_copies_inv & Hwf').
    apply Hfresh. rewrite <- Hname.
    eapply elem_of_sublist; [|apply accepted_names_sublist].
    apply list_elem_of_fmap. by exists wf'.
Qed.

Lemma load_workflows_empty_language_witness :
  (∃ err' wfs',
     load_workflows Scenario.is_file Scenario.manifest_file
       ([ ("git_fixup", {[ "file" := Scalar "git.yml" ]}) ] ++ [])
     = (err', Ok (wfs', [("*", [Scenario.git_fixup])])))
  ∧ [ Scenario.git_fixup;
      Workflow.mk "unused" (parse "/repo/workflows") ["lint.yml"] [] ]
    = omap (accepted Scenario.is_file (parent Scenario.manifest_file))
        [ ("git_fixup", {[ "file" := Scalar "git.yml" ]}) ]
      ++ Workflow.mk "unused" (parent Scenario.manifest_file) ["lint.yml"] []
      :: omap (accepted Scenario.is_file (parent Scenario.manifest_file)) []
  ∧ Workflow.mk "unused" (parent Scenario.manifest_file) ["lint.yml"] []
      ∉ bucket [("*", [Scenario.git_fixup])] "*".
Proof.
  destruct (load_workflows_empty_language Scenario.is_file
              Scenario.manifest_file
              [ ("git_fixup", {[ "file" := Scalar "git.yml" ]}) ] []
              "unused" {[ "file" := Scalar "lint.yml";
                          "language" := Array [] ]}
              []
              [Scenario.git_fixup;
               Workflow.mk "unused" (parse "/repo/workflows") ["lint.yml"] []]
              [("*", [Scenario.git_fixup])])
    as (Hsame & _ & Hlisted & _); [reflexivity | vm_compute; reflexivity |].
  destruct (Hlisted ["lint.yml"]) as (Hwfs & _ & Hout);
    [reflexivity | by_compute |].
  split_and!; [exact Hsame | exact Hwfs | apply Hout].
Defined.

(** ** The scanner as a whole *)

Lemma scan_dirs_closed base (ignore : list string) (entries : entries_t) acc :
  for_each (scan_dir ignore) acc (iterdir base entries)
  = Ok (acc ++ omap (repository_of base)
                 (filter (λ e, e.1 ∉ ignore) entries)).
Proof.
  unfold iterdir. revert acc.
  induction entries as [|[n nd] entries IH]; intros acc.
  - simpl. by rewrite app_nil_r.
  - rewrite fmap_cons, filter_cons. cbn [for_each fst snd].
    rewrite scan_dir_child.
    destruct (decide (n ∉ ignore)) as [Hout|Hin].
    + cbn [omap list_omap]. unfold repository_of at 1. cbn [fst snd].
      destruct nd as [|es|]; cbn [mbind result_bind]; [apply IH| |apply IH].
      rewrite decide_False by done.
      destruct (determine_language_in_spec LANGUAGES (child base n) es
                  LANGUAGES_wf) as (langs & Hrun & _).
      fold (determine_language (child base n) es) in Hrun.
      rewrite Hrun. cbn [mbind result_bind]. rewrite IH.
      by rewrite <- app_assoc.
    + destruct nd as [|es|]; cbn [mbind result_bind]; [apply IH| |apply IH].
      rewrite decide_True by by apply dec_stable.
      cbn [mbind result_bind]. apply IH.
Qed.

Lemma find_repositories_closed base (entries : entries_t)
    (ignore : list string) :
  find_repositories base entries ignore
  = Ok (omap (repository_of base) (filter (λ e, e.1 ∉ ignore) entries)).
Proof. unfold find_repositories. by rewrite scan_dirs_closed. Qed.

Lemma repository_of_inv base (e : string * node) r :
  repository_of base e = Some r →
  ∃ es, e.2 = Dir es
        ∧ Repository.path r = child base e.1
        ∧ determine_language (child base e.1) es
          = Ok (Repository.languages r)
        ∧ Repository.workflows r
          = find_existing_workflows (child base e.1) es.
Proof.
  unfold repository_of. destruct e as [n [|es|]]; simpl; try done.
  destruct (determine_language (child base n) es) as [langs|] eqn:Hrun;
    [|done].
  intros [= <-]. by exists es.
Qed.

Lemma omap_repository_of_filter base (entries : entries_t)
    (ignore : list string) :
  omap (repository_of base) (filter (λ e, e.1 ∉ ignore) entries)
  = filter (λ r, name (Repository.path r) ∉ ignore)
      (omap (repository_of base) entries).
Proof.
  induction entries as [|e entries IH]; [done|].
  rewrite filter_cons. cbn [omap list_omap].
  destruct (repository_of base e) as [r|] eqn:Hr.
  - destruct (repository_of_inv _ _ _ Hr) as (es & _ & Hp & _).
    rewrite filter_cons, Hp, name_child.
    destruct (decide (e.1 ∉ ignore)); cbn [omap list_omap];
      rewrite ?Hr; by rewrite IH.
  - destruct (decide (e.1 ∉ ignore)); cbn [omap list_omap];
      rewrite ?Hr; by rewrite IH.
Qed.

(** X12: ignoring repositories is the same as scanning all of them and
    dropping the records whose directory name is on the ignore list; in
    particular a longer ignore list only removes records, and names on
    the list that are no directory of the base have no effect. *)
Theorem find_repositories_ignore
    (base_dir : Path) (entries : entries_t) (ignore : list string) :
  ∃ every,
    find_repositories base_dir entries [] = Ok every
    ∧ find_repositories base_dir entries ignore
      = Ok (filter (λ r, name (Repository.path r) ∉ ignore) every)
    ∧ (∀ more,
         find_repositories base_dir entries (ignore ++ more)
         = Ok (filter (λ r, name (Repository.path r) ∉ more)
                 (filter (λ r, name (Repository.path r) ∉ ignore) every)))
    ∧ ((∀ n es, (n, Dir es) ∈ entries → n ∉ ignore) →
       find_repositories base_dir entries ignore = Ok every).
Proof.
  exists (omap (repository_of base_dir) entries).
  assert (∀ ig, find_repositories base_dir entries ig
                = Ok (filter (λ r, name (Repository.path r) ∉ ig)
                        (omap (repository_of base_dir) entries))) as Hig.
  { intros ig. by rewrite find_repositories_closed,
      omap_repository_of_filter. }
  split_and!.
  - rewrite Hig. f_equal. clear Hig.
    induction (omap (repository_of base_dir) entries) as [|r rs IH]; [done|].
    rewrite filter_cons_True; [by f_equal | by intros ?%elem_of_nil].
  - apply Hig.
  - intros more. rewrite Hig. f_equal. rewrite list_filter_filter.
    apply list_filter_iff. intros r. rewrite elem_of_app. tauto.
  - intros Hnone. rewrite Hig. f_equal.
    assert (Forall (λ r, name (Repository.path r) ∉ ignore)
              (omap (repository_of base_dir) entries)) as Hall.
    { apply Forall_forall. intros r
        ([n nd] & Hin & (es & Hnd & -> & _)%repository_of_inv)
        %list_elem_of_omap.
      simpl in *. subst nd. rewrite name_child. by eapply Hnone. }
    clear Hig Hnone.
    induction Hall as [|r rs Hr _ IH]; [done|].
    rewrite filter_cons_True by done. by f_equal.
Qed.

Lemma find_repositories_ignore_witness :
  find_repositories Scenario.base_dir Scenario.workspace
    ["notes.md"; "no_such_repo"]
  = find_repositories Scenario.base_dir Scenario.workspace [].
Proof.
  destruct (find_repositories_ignore Scenario.base_dir Scenario.workspace
              ["notes.md"; "no_such_repo"]) as (every & -> & _ & _ & Hnone).
  apply Hnone. intros n es Hin.
  assert (Forall (λ e : string * node,
                    is_dir e.2 → e.1 ∉ ["notes.md"; "no_such_repo"])
            Scenario.workspace) as Hall by by_compute.
  rewrite Forall_forall in Hall.
  apply (Hall (n, Dir es) Hin I).
Defined.

Lemma find_existing_workflows_suffix repo_dir (entries : entries_t) w :
  w ∈ find_existing_workflows repo_dir entries → suffix_of_name w = ".yml".
Proof.
  rewrite find_existing_workflows_unfold.
  destruct (od_lookup entries ".github") as [[|gh|]|];
    try by intros ?%elem_of_nil.
  destruct (od_lookup gh "workflows") as [[|es|]|];
    try by intros ?%elem_of_nil.
  by intros ([n nd] & -> & [[_ ?] _]%list_elem_of_filter)%list_elem_of_fmap.
Qed.

Lemma child_inj base n n' : child base n = child base n' → n = n'.
Proof.
  unfold child. intros [= H]. by apply app_inj_tail in H as [_ ?].
Qed.

Lemma parent_child base n : parent (child base n) = base.
Proof.
  unfold parent, child. simpl. rewrite removelast_last. by destruct base.
Qed.

Lemma repository_paths_sublist base (entries : entries_t) :
  Repository.path <$> omap (repository_of base) entries
    `sublist_of` child base <$> entries.*1.
Proof.
  induction entries as [|e entries IH]; csimpl; [done|].
  destruct (repository_of base e) as [r|] eqn:Hr; csimpl.
  - destruct (repository_of_inv _ _ _ Hr) as (es & _ & -> & _).
    by apply sublist_skip.
  - by apply sublist_cons.
Qed.

(** X13: every record [find_repositories] returns is well formed: its
    path is a child of the base directory, its languages are tags of
    [LANGUAGES] without repetition, and each of its workflow names has
    the extension [.yml]; when the entries of the base have distinct
    names, no two records have the same path. *)
Theorem find_repositories_records
    (base_dir : Path) (entries : entries_t) (ignore : list string)
    (repos : list Repository.t) :
  find_repositories base_dir entries ignore = Ok repos →
  Forall (λ r,
            parent (Repository.path r) = base_dir
            ∧ NoDup (Repository.languages r)
            ∧ Forall (λ lang, lang ∈ keys LANGUAGES) (Repository.languages r)
            ∧ Forall (λ w, suffix_of_name w = ".yml")
                (Repository.workflows r)) repos
  ∧ (NoDup entries.*1 → NoDup (Repository.path <$> repos)).
Proof.
  rewrite find_repositories_closed. intros [= <-]. split.
  - apply Forall_forall. intros r
      ([n nd] & _ & (es & _ & Hp & Hl & Hw)%repository_of_inv)
      %list_elem_of_omap.
    cbn [fst snd] in *.
    destruct (determine_language_in_spec LANGUAGES (child base_dir n) es
                LANGUAGES_wf) as (langs & Hrun & Hnd & Hiff).
    fold (determine_language (child base_dir n) es) in Hrun.
    rewrite Hl in Hrun. injection Hrun as <-.
    split_and!.
    + by rewrite Hp, parent_child.
    + done.
    + apply Forall_forall. intros lang (exts & _ & ? & _)%Hiff.
      apply elem_of_keys. by exists exts.
    + apply Forall_forall. intros w. rewrite Hw.
      apply find_existing_workflows_suffix.
  - intros Hnd. rewrite omap_repository_of_filter.
    eapply sublist_NoDup;
      [|etransitivity;
         [apply fmap_sublist, sublist_filter
         |apply repository_paths_sublist]].
    apply NoDup_fmap_2; [|done]. intros n n'. apply child_inj.
Qed.

Lemma find_repositories_records_witness :
  Forall (λ r, parent (Repository.path r) = Scenario.base_dir
               ∧ NoDup (Repository.languages r)) Scenario.repos
  ∧ NoDup (Repository.path <$> Scenario.repos).
Proof.
  destruct (find_repositories_records Scenario.base_dir Scenario.workspace
              ["py_cpp_pkg"] Scenario.repos) as [Hall Hpaths];
    [vm_compute; reflexivity|].
  split.
  - eapply Forall_impl; [exact Hall|]. intros r (? & ? & _). by split.
  - apply Hpaths. by_compute.
Defined.

Example print_table_examples :
  print_table [["a"; "bb"]; ["ccc"; "d"]] (Some ["X"; "Y"])
  = (["X   | Y "; "a   | bb"; "ccc | d "], None)
  ∧ print_table [["a"; "bb"; "zz"]; ["ccc"]] None = (["a  "; "ccc"], None)
  ∧ print_table [] None = ([], Some IndexError)
  ∧ print_table [] (Some []) = ([], Some IndexError)
  ∧ print_table [[]; ["x"]] None = ([EmptyString; EmptyString], None).
Proof. repeat split; vm_compute; reflexivity. Qed.

(** ** The table printer *)

Lemma string_length_app (s1 s2 : string) :
  String.length (s1 +:+ s2) = String.length s1 + String.length s2.
Proof. induction s1 as [|c s1 IH]; simpl; [done | by rewrite IH]. Qed.

Lemma string_length_spaces n : String.length (spaces n) = n.
Proof. induction n as [|n IH]; simpl; [done | by rewrite IH]. Qed.

Lemma string_length_pad cell width :
  String.length (pad cell width) = String.length cell `max` width.
Proof.
  unfold pad. rewrite string_length_app, string_length_spaces. lia.
Qed.

Lemma string_length_join (sep : string) (items : list string) :
  String.length (join sep items)
  = sum_list (String.length <$> items)
    + String.length sep * (length items - 1).
Proof.
  induction items as [|x [|y items] IH]; [simpl; lia | simpl; lia |].
  change (join sep (x :: y :: items))
    with (x +:+ sep +:+ join sep (y :: items)).
  rewrite !string_length_app, IH. csimpl. lia.
Qed.

Lemma fits_cons_inv w ws cell cells :
  fits (w :: ws) (cell :: cells) → String.length cell ≤ w ∧ fits ws cells.
Proof.
  intros H. split.
  - destruct (H 0 w eq_refl) as (c & [= <-] & ?). done.
  - intros i w' Hi. apply (H (S i) w' Hi).
Qed.

Lemma fields_long_enough widths row :
  length widths ≤ length row →
  fields widths row = Some (zip_with pad row widths).
Proof.
  revert row. induction widths as [|w ws IH]; intros [|cell cells] Hlen;
    simpl in *; try done; try lia.
  rewrite IH by lia. done.
Qed.

Lemma fields_too_short widths row :
  length row < length widths → fields widths row = None.
Proof.
  revert row. induction widths as [|w ws IH]; intros [|cell cells] Hlen;
    simpl in *; try done; try lia.
  rewrite IH by lia. done.
Qed.

Lemma fits_length widths row : fits widths row → length widths ≤ length row.
Proof.
  revert row. induction widths as [|w ws IH]; intros row H; simpl; [lia|].
  destruct row as [|cell cells].
  - by destruct (H 0 w eq_refl) as (c & ? & _).
  - apply fits_cons_inv in H as [_ H]. apply IH in H. simpl. lia.
Qed.

Lemma fits_pad_lengths widths row :
  fits widths row → String.length <$> zip_with pad row widths = widths.
Proof.
  revert row. induction widths as [|w ws IH]; intros [|cell cells] H;
    try done.
  - by destruct (H 0 w eq_refl) as (c & ? & _).
  - apply fits_cons_inv in H as [Hc H]. csimpl.
    rewrite string_length_pad, IH by done. f_equal. lia.
Qed.

Lemma print_rows_long_enough widths (data : list (list string)) :
  Forall (λ row, length widths ≤ length row) data →
  print_rows widths data
  = ((λ row, join " | " (zip_with pad row widths)) <$> data, None).
Proof.
  induction 1 as [|row data Hrow _ IH]; [done|].
  cbn [print_rows]. unfold format_row.
  rewrite fields_long_enough by done. simpl. by rewrite IH.
Qed.

Lemma length_widen ml row :
  length (widen ml row) = length ml `min` length row.
Proof. unfold widen. by rewrite length_zip_with, length_fmap. Qed.

Lemma length_foldl_widen ml (rest : list (list string)) :
  length (foldl widen ml rest)
  = foldl (λ m row, m `min` length row) (length ml) rest.
Proof.
  revert ml. induction rest as [|row rest IH]; intros ml; [done|].
  simpl. by rewrite IH, length_widen.
Qed.

Lemma foldl_min_le (rest : list (list string)) m :
  foldl (λ m row, m `min` length row) m rest ≤ m
  ∧ Forall (λ row, foldl (λ m row, m `min` length row) m rest ≤ length row)
      rest.
Proof.
  revert m. induction rest as [|row rest IH]; intros m; simpl.
  - split; [lia | constructor].
  - destruct (IH (m `min` length row)) as [Hle Hall]. split; [lia|].
    constructor; [lia | done].
Qed.

Lemma columns_le (data : list (list string)) :
  Forall (λ row, columns data ≤ length row) data.
Proof.
  destruct data as [|first rest]; [constructor|]. unfold columns.
  destruct (foldl_min_le rest (length first)) as [Hle Hall].
  by constructor.
Qed.

Lemma print_table_unfold data header :
  print_table data header =
    match with_header data header with
    | [] => ([], Some IndexError)
    | first :: rest =>
        print_rows (foldl widen (String.length <$> first) rest)
          (first :: rest)
    end.
Proof.
  unfold print_table, with_header.
  destruct header as [[|h hs]|]; destruct data; reflexivity.
Qed.

(** X14: [print_table] raises [IndexError] exactly when there is neither
    a row nor a non-empty header, having printed nothing.  On any other
    table it never fails, whatever the shapes of the rows: it prints one
    line per row, the header first, each line being the row's first
    cells, as many as the shortest row of the table has, each padded to
    its column's width and joined by [" | "]; cells beyond that are not
    printed. *)
Theorem print_table_lines
    (data : list (list string)) (header : option (list string)) :
  (with_header data header = [] →
   print_table data header = ([], Some IndexError))
  ∧ (with_header data header ≠ [] →
     ∃ widths,
       length widths = columns (with_header data header)
       ∧ print_table data header
         = ((λ row, join " | " (zip_with pad row widths))
              <$> with_header data header,
            None)
       ∧ length (print_table data header).1
         = length (with_header data header)).
Proof.
  rewrite print_table_unfold. split.
  - by intros ->.
  - destruct (with_header data header) as [|first rest] eqn:Htbl; [done|].
    intros _.
    exists (foldl widen (String.length <$> first) rest).
    assert (length (foldl widen (String.length <$> first) rest)
            = columns (first :: rest)) as Hlen.
    { by rewrite length_foldl_widen, length_fmap. }
    split; [done|].
    rewrite print_rows_long_enough.
    + split; [done|]. simpl. by rewrite length_fmap.
    + rewrite Hlen. apply columns_le.
Qed.

Lemma print_table_lines_witness :
  print_table [] (Some []) = ([], Some IndexError)
  ∧ ∃ widths,
      length widths = 1
      ∧ print_table [["a"; "bb"; "zz"]; ["ccc"]] None
        = ((λ row, join " | " (zip_with pad row widths))
             <$> [["a"; "bb"; "zz"]; ["ccc"]], None).
Proof.
  destruct (print_table_lines [] (Some [])) as [Hempty _].
  destruct (print_table_lines [["a"; "bb"; "zz"]; ["ccc"]] None)
    as [_ Hrows].
  split; [by apply Hempty|].
  destruct Hrows as (widths & Hlen & Hout & _); [done|].
  by exists widths.
Defined.

Lemma lookup_widen ml row i w :
  widen ml row !! i = Some w →
  ∃ w0 cell,
    ml !! i = Some w0 ∧ row !! i = Some cell
    ∧ w = w0 `max` String.length cell.
Proof.
  unfold widen. rewrite lookup_zip_with, list_lookup_fmap.
  destruct (ml !! i) as [w0|]; [|done]. simpl.
  destruct (row !! i) as [cell|]; [|done]. simpl.
  intros [= <-]. by exists w0, cell.
Qed.

Lemma lookup_foldl_widen (rest : list (list string)) ml i w :
  foldl widen ml rest !! i = Some w →
  ∃ w0,
    ml !! i = Some w0 ∧ w0 ≤ w
    ∧ Forall (λ row, ∃ cell, row !! i = Some cell
                             ∧ String.length cell ≤ w) rest
    ∧ (w = w0 ∨ Exists (λ row, ∃ cell, row !! i = Some cell
                                       ∧ String.length cell = w) rest).
Proof.
  revert ml. induction rest as [|row rest IH]; intros ml; simpl.
  - intros Hw. exists w. split_and!; [done | lia | constructor | by left].
  - intros (w1 & (w0 & cell & Hw0 & Hcell & ->)%lookup_widen & Hle & Hall
            & Hmax)%IH.
    exists w0. split_and!; [done | lia | |].
    + constructor; [|done]. exists cell. split; [done | lia].
    + destruct Hmax as [->|Hex]; [|by right; constructor].
      destruct (decide (String.length cell ≤ w0)).
      * left. lia.
      * right. constructor. exists cell. split; [done | lia].
Qed.

Lemma lookup_widths first (rest : list (list string)) i w :
  foldl widen (String.length <$> first) rest !! i = Some w →
  Forall (λ row, ∃ cell, row !! i = Some cell ∧ String.length cell ≤ w)
    (first :: rest)
  ∧ Exists (λ row, ∃ cell, row !! i = Some cell ∧ String.length cell = w)
      (first :: rest).
Proof.
  intros (w0 & Hw0 & Hle & Hall & Hmax)%lookup_foldl_widen.
  rewrite list_lookup_fmap in Hw0.
  destruct (first !! i) as [cell|] eqn:Hcell; [|done].
  injection Hw0 as <-. split.
  - constructor; [by exists cell | done].
  - destruct Hmax as [->|Hex]; [|by constructor].
    constructor. by exists cell.
Qed.

(** X15: on a table that is not empty the widths [print_table] pads to
    are the column maxima over all rows, the header included: no cell of
    a printed column is longer than the column's width and some cell has
    exactly that length.  So no printed cell is cut, and every line of
    the table has the same length, the sum of the widths plus three
    characters per separator. *)
Theorem print_table_aligned
    (data : list (list string)) (header : option (list string)) :
  with_header data header ≠ [] →
  ∃ widths,
    (print_table data header).1
    = (λ row, join " | " (zip_with pad row widths))
        <$> with_header data header
    ∧ (∀ i w, widths !! i = Some w →
         Forall (λ row, ∃ cell, row !! i = Some cell
                                ∧ String.length cell ≤ w)
           (with_header data header)
         ∧ Exists (λ row, ∃ cell, row !! i = Some cell
                                  ∧ String.length cell = w)
             (with_header data header))
    ∧ Forall (λ line, String.length line
                      = sum_list widths + 3 * (length widths - 1))
        (print_table data header).1.
Proof.
  intros Hne. rewrite print_table_unfold.
  destruct (with_header data header) as [|first rest] eqn:Htbl; [done|].
  set (widths := foldl widen (String.length <$> first) rest).
  assert (Forall (fits widths) (first :: rest)) as Hfits.
  { apply Forall_forall. intros row Hrow i w Hw.
    apply lookup_widths in Hw as [Hall _].
    rewrite Forall_forall in Hall. by apply Hall. }
  rewrite print_rows_long_enough
    by (eapply Forall_impl; [exact Hfits | apply fits_length]).
  exists widths. split_and!; [done | apply lookup_widths |].
  cbn [fst]. apply Forall_fmap. eapply Forall_impl; [exact Hfits|].
  intros row Hrow. unfold compose.
  rewrite string_length_join, fits_pad_lengths by done.
  pose proof (f_equal length (fits_pad_lengths widths row Hrow)) as Hl.
  rewrite length_fmap in Hl. by rewrite Hl.
Qed.

Lemma print_table_aligned_witness :
  ∃ widths,
    (print_table [["a"; "bb"]; ["ccc"; "d"]] (Some ["NAME"; "F"])).1
    = (λ row, join " | " (zip_with pad row widths))
        <$> [["NAME"; "F"]; ["a"; "bb"]; ["ccc"; "d"]]
    ∧ Forall (λ line, String.length line
                      = sum_list widths + 3 * (length widths - 1))
        (print_table [["a"; "bb"]; ["ccc"; "d"]] (Some ["NAME"; "F"])).1.
Proof.
  destruct (print_table_aligned [["a"; "bb"]; ["ccc"; "d"]]
              (Some ["NAME"; "F"])) as (widths & Hout & _ & Hlen); [done|].
  by exists widths.
Defined.

(** ** The commands *)

Lemma foldl_min_same n (rows : list (list string)) :
  Forall (λ row, length row = n) rows →
  foldl (λ m row, m `min` length row) n rows = n.
Proof.
  induction 1 as [|row rows Hrow _ IH]; [done|].
  simpl. rewrite Hrow, Nat.min_id. exact IH.
Qed.

Lemma fits_line_length widths row :
  fits widths row →
  String.length (join " | " (zip_with pad row widths))
  = sum_list widths + 3 * (length widths - 1).
Proof.
  intros Hrow. rewrite string_length_join, fits_pad_lengths by done.
  pose proof (f_equal length (fits_pad_lengths widths row Hrow)) as Hl.
  rewrite length_fmap in Hl. by rewrite Hl.
Qed.

Lemma print_table_rectangular header (rows : list (list string)) :
  header ≠ [] →
  Forall (λ row, length row = length header) rows →
  ∃ widths,
    length widths = length header
    ∧ print_table rows (Some header)
      = ((λ row, join " | " (zip_with pad row widths)) <$> header :: rows,
         None)
    ∧ Forall (fits widths) (header :: rows).
Proof.
  intros Hne Hrows. rewrite print_table_unfold.
  destruct header as [|h hs]; [done|]. cbn [with_header].
  set (widths := foldl widen (String.length <$> h :: hs) rows).
  assert (Forall (fits widths) ((h :: hs) :: rows)) as Hfits.
  { apply Forall_forall. intros row Hrow i w Hw.
    apply lookup_widths in Hw as [Hall _].
    rewrite Forall_forall in Hall. by apply Hall. }
  exists widths. split_and!; [|by apply print_rows_long_enough;
    eapply Forall_impl; [exact Hfits | apply fits_length] | done].
  unfold widths. rewrite length_foldl_widen, length_fmap.
  by apply foldl_min_same.
Qed.

(** X16: [cmd_list_workflows] on a manifest all of whose entries have the
    [file] key prints the title, the header and one row per loaded
    workflow, with its name, its languages joined by commas and its
    files, all three columns shown and every table line of the same
    length, writes the loader's diagnostics to the error stream and
    returns 0; on any other manifest it prints nothing on standard output
    and ends with the loader's [KeyError('file')]. *)
Theorem cmd_list_workflows_output
    (is_file : Path → bool) (workflows : Path) (manifest : manifest_t) :
  (Forall has_file_key manifest →
   ∃ widths,
     length widths = 3
     ∧ cmd_list_workflows is_file workflows manifest
       = mkRun
           ("Workflows:"
              :: ((λ row, join " | " (zip_with pad row widths))
                    <$> ["NAME"; "LANGUAGES"; "FILES"]
                          :: (workflow_row
                                <$> omap (accepted is_file (parent workflows))
                                      manifest)))
           (omap (rejection is_file (parent workflows)) manifest)
           (Exit 0)
     ∧ Forall (λ line, String.length line = sum_list widths + 6)
         (tail (stdout (cmd_list_workflows is_file workflows manifest))))
  ∧ (¬ Forall has_file_key manifest →
     stdout (cmd_list_workflows is_file workflows manifest) = []
     ∧ ended (cmd_list_workflows is_file workflows manifest)
       = Uncaught (KeyError "file")).
Proof.
  unfold cmd_list_workflows. split.
  - intros Hkeys. rewrite load_workflows_has_keys by done.
    destruct (print_table_rectangular ["NAME"; "LANGUAGES"; "FILES"]
                (workflow_row
                   <$> omap (accepted is_file (parent workflows)) manifest))
      as (widths & Hlen & -> & Hfits); [done| |].
    { apply Forall_fmap, Forall_true. done. }
    exists widths. split_and!; [done..|]. cbn [stdout tail].
    apply Forall_fmap. eapply Forall_impl; [exact Hfits|].
    intros row Hrow. unfold compose.
    rewrite fits_line_length by done. rewrite Hlen. done.
  - intros Hno.
    destruct (first_failure has_file_key manifest)
      as [?|(pre & x & post & -> & Hpre & Hx)]; [done|].
    by rewrite load_workflows_missing_key.
Qed.

Lemma cmd_list_workflows_output_witness :
  Forall (λ line, ∃ n, String.length line = n + 6)
    (tail (stdout (cmd_list_workflows Scenario.is_file Scenario.manifest_file
                     Scenario.manifest)))
  ∧ ended (cmd_list_workflows Scenario.is_file Scenario.manifest_file
             Scenario.manifest_no_file)
    = Uncaught (KeyError "file").
Proof.
  destruct (cmd_list_workflows_output Scenario.is_file Scenario.manifest_file
              Scenario.manifest) as [Hok _].
  destruct (cmd_list_workflows_output Scenario.is_file Scenario.manifest_file
              Scenario.manifest_no_file) as [_ Hfail].
  split.
  - destruct Hok as (widths & _ & _ & Hlines);
      [unfold has_file_key; by_compute|].
    eapply Forall_impl; [exact Hlines|]. intros line Hline.
    by exists (sum_list widths).
  - apply Hfail. unfold has_file_key. by_compute.
Defined.

Example cmd_list_workflows_example :
  cmd_list_workflows Scenario.is_file Scenario.manifest_file Scenario.manifest
  = mkRun
      [ "Workflows:";
        "NAME          | LANGUAGES | FILES                                  ";
        "python_flake8 | python    | flake8.yml, flake8-problem-matcher.json";
        "git_fixup     | *         | git.yml                                " ]
      [ diagnostic "doesnotexist" (FileNotFoundError "missing.yml") ]
      (Exit 0).
Proof. vm_compute. reflexivity. Qed.

(** X17: when the scan of the target root returns, [cmd_list_repos] ends
    with 0 and has written nothing to the error stream: it prints the
    title naming the target root, the header, and one row per repository
    that [find_repositories] returned, with the directory name and the
    languages and existing workflows joined by commas, every table line
    having the same length.  The header is a row of the table, so
    [print_table] does not raise here even when no repository is
    found. *)
Theorem cmd_list_repos_output
    (target_root : Path) (entries : entries_t) (ignore_repos : list string)
    (repos : list Repository.t) :
  find_repositories target_root entries ignore_repos = Ok repos →
  ∃ widths,
    length widths = 3
    ∧ cmd_list_repos target_root entries ignore_repos
      = mkRun
          (("Repositories in " +:+ path_str target_root +:+ ":" +:+ LF)
             :: ((λ row, join " | " (zip_with pad row widths))
                   <$> ["NAME"; "LANGUAGES"; "EXISTING WORKFLOWS"]
                         :: (repository_row <$> repos)))
          [] (Exit 0)
    ∧ length (stdout (cmd_list_repos target_root entries ignore_repos))
      = 2 + length repos
    ∧ Forall (λ line, String.length line = sum_list widths + 6)
        (tail (stdout (cmd_list_repos target_root entries ignore_repos))).
Proof.
  intros Hscan. unfold cmd_list_repos. rewrite Hscan.
  destruct (print_table_rectangular ["NAME"; "LANGUAGES"; "EXISTING WORKFLOWS"]
              (repository_row <$> repos))
    as (widths & Hlen & -> & Hfits); [done| |].
  { apply Forall_fmap, Forall_true. done. }
  exists widths. split_and!; [done..| |].
  - cbn [stdout]. rewrite fmap_cons. cbn [length].
    by rewrite !length_fmap.
  - cbn [stdout tail].
    apply Forall_fmap. eapply Forall_impl; [exact Hfits|].
    intros row Hrow. unfold compose.
    rewrite fits_line_length by done. rewrite Hlen. done.
Qed.

Lemma cmd_list_repos_output_witness :
  ∃ widths,
    length widths = 3
    ∧ cmd_list_repos Scenario.base_dir Scenario.workspace ["py_cpp_pkg"]
      = mkRun
          (("Repositories in " +:+ path_str Scenario.base_dir +:+ ":" +:+ LF)
             :: ((λ row, join " | " (zip_with pad row widths))
                   <$> ["NAME"; "LANGUAGES"; "EXISTING WORKFLOWS"]
                         :: (repository_row <$> Scenario.repos)))
          [] (Exit 0)
    ∧ length (stdout (cmd_list_repos Scenario.base_dir Scenario.workspace
                        ["py_cpp_pkg"]))
      = 2 + length Scenario.repos
    ∧ Forall (λ line, String.length line = sum_list widths + 6)
        (tail (stdout (cmd_list_repos Scenario.base_dir Scenario.workspace
                         ["py_cpp_pkg"]))).
Proof.
  apply (cmd_list_repos_output Scenario.base_dir Scenario.workspace
           ["py_cpp_pkg"] Scenario.repos).
  vm_compute. reflexivity.
Defined.

Example cmd_list_repos_example :
  cmd_list_repos Scenario.base_dir Scenario.workspace ["py_cpp_pkg"]
  = mkRun
      [ "Repositories in /tmp/ws:" +:+ LF;
        "NAME      | LANGUAGES | EXISTING WORKFLOWS      ";
        "empty_pkg |           |                         ";
        "py_pkg    | python    | exists1.yml, exists2.yml";
        "cpp_pkg   | c++       |                         " ]
      [] (Exit 0).
Proof. vm_compute. reflexivity. Qed.

(** ** Putting the workflows in place *)

Section cmd_put_facts.
Context {World Error : Type}.
Variable mkdir : World → Path → World + Error.
Variable copyfile : World → Path → Path → World + Error.




End cmd_put_facts.




Example cmd_put_examples :
  cmd_put Disk.mkdir Disk.copyfile Scenario.is_file Scenario.manifest_file
    Scenario.manifest Scenario.base_dir Scenario.workspace
    ["py_cpp_pkg"; "py_pkg"; "cpp_pkg"] true false Scenario.workflow_files
  = ([ YELLOW +:+ "Dry run, not actually copying files.";
       "Copy /repo/workflows/git.yml -> "
         +:+ "/tmp/ws/empty_pkg/.github/workflows/git.yml" ],
     [ diagnostic "doesnotexist" (FileNotFoundError "missing.yml") ],
     Scenario.workflow_files, PutExit 0)
  ∧ cmd_put Disk.mkdir Disk.copyfile Scenario.is_file Scenario.manifest_file
      Scenario.manifest Scenario.base_dir Scenario.workspace
      ["py_cpp_pkg"; "py_pkg"; "cpp_pkg"] false false
      Scenario.workflow_files
    = ([],
       [ diagnostic "doesnotexist" (FileNotFoundError "missing.yml") ],
       parse "/tmp/ws/empty_pkg/.github/workflows/git.yml"
         :: Scenario.workflow_files,
       PutExit 0)
  ∧ cmd_put Disk.mkdir Disk.copyfile Scenario.is_file Scenario.manifest_file
      Scenario.manifest Scenario.base_dir Scenario.workspace
      ["py_cpp_pkg"] false true [parse "/repo/workflows/git.yml"]
    = ([ "Copy /repo/workflows/git.yml -> "
           +:+ "/tmp/ws/empty_pkg/.github/workflows/git.yml" ],
       [ diagnostic "doesnotexist" (FileNotFoundError "missing.yml") ],
       [ parse "/tmp/ws/empty_pkg/.github/workflows/git.yml";
         parse "/repo/workflows/git.yml" ],
       PutFailed "/repo/workflows/flake8.yml").
Proof. repeat split; vm_compute; reflexivity. Qed.

(** ** Scanner and matcher together *)

(** X20: an operation computed for the repositories [find_repositories]
    returns is always for a directory directly under the base whose name
    is not on the ignore list: its destination is that directory's path
    joined with [.github/workflows] and a file of a workflow of the
    index, so for a relative file its components are those of the base,
    the directory's name, [.github], [workflows] and the file's own. *)
Theorem operations_only_for_scanned
    (base_dir : Path) (entries : entries_t) (ignore : list string)
    (repos : list Repository.t) (idx : index) (o : operation) :
  find_repositories base_dir entries ignore = Ok repos →
  o ∈ determine_operations repos idx →
  ∃ n es lang wf wf_file,
    (n, Dir es) ∈ entries ∧ (n ∉ ignore)
    ∧ lang ∈ keys idx ∧ wf ∈ bucket idx lang
    ∧ wf_file ∈ Workflow.files wf
    ∧ o = (Workflow.parent_dir wf </> wf_file,
           child base_dir n </> ".github/workflows" </> wf_file)
    ∧ (root (parse wf_file) = EmptyString →
       o.2 = mkPath (root base_dir)
               (parts base_dir ++ [n] ++ [".github"; "workflows"]
                  ++ parts (parse wf_file))).
Proof.
  rewrite find_repositories_closed. intros [= <-].
  rewrite determine_operations_spec. unfold spec_operations.
  intros (repo & (lang & wf & f & Hkey & _ & Hwf & Hf & ->)
                   %elem_of_spec_repo_operations
               & ([n nd] & [Hn Hin]%list_elem_of_filter
                  & (es & Hnd & Hp & _)%repository_of_inv)
                   %list_elem_of_omap)%list_elem_of_bind.
  cbn [fst snd] in *. subst nd. rewrite Hp.
  exists n, es, lang, wf, f. split_and!; [done..|].
  intros Hrel. cbn [snd]. rewrite (joinpath_relative _ f Hrel).
  unfold child. simpl. by rewrite <- !app_assoc.
Qed.

Lemma operations_only_for_scanned_witness :
  ∃ n es lang wf wf_file,
    (n, Dir es) ∈ Scenario.workspace ∧ (n ∉ ["py_cpp_pkg"])
    ∧ lang ∈ keys Scenario.idx ∧ wf ∈ bucket Scenario.idx lang
    ∧ wf_file ∈ Workflow.files wf
    ∧ (parse "/repo/workflows/flake8.yml",
       parse "/tmp/ws/py_pkg/.github/workflows/flake8.yml")
      = (Workflow.parent_dir wf </> wf_file,
         child Scenario.base_dir n </> ".github/workflows" </> wf_file)
    ∧ (root (parse wf_file) = EmptyString →
       (parse "/repo/workflows/flake8.yml",
        parse "/tmp/ws/py_pkg/.github/workflows/flake8.yml").2
       = mkPath (root Scenario.base_dir)
           (parts Scenario.base_dir ++ [n] ++ [".github"; "workflows"]
              ++ parts (parse wf_file))).
Proof.
  apply (operations_only_for_scanned Scenario.base_dir Scenario.workspace
           ["py_cpp_pkg"] Scenario.repos Scenario.idx);
    [vm_compute; reflexivity | by_compute].
Defined.
